(** * TRIQS tutorial notebooks: Lindhard bubble, grid evaluation,
      Kanamori interaction and the Bethe-lattice DMFT loops

    A shallow embedding of the computational cells of the notebooks

    - [Basics/04-Multivariable_Green_functions.ipynb]  (evaluation, partial
      evaluation),
    - the Lindhard notebook (the C++ cell [bubble]),
    - the operator notebook and [scripts/two_band.py] (the interaction
      [h_int]),
    - [scripts/one_band.py], [scripts/two_band.py] and the IPT script (the
      DMFT self-consistency loops),
    - the cells around them: the Hamiltonian of the operator notebook, the
      loop and the broadcast that fill a Green's function, the archive,
      the plot grid and the path of the Lindhard notebook, the archives
      that the DMFT scripts write and that the analysis cells read.

    Numbers are exact: a Python/C++ [double] is a canonical rational [Qc], a
    complex number a pair of them.  The objects of the external framework
    that the cells only call (Fourier transforms, the Monte Carlo solver,
    [inverse], [iOmega_n], [SemiCircular]) are parameters of the model. *)

From Stdlib Require Import ZArith QArith Qcanon Qround List String Lia Lqa Ring Field.
From stdpp Require Import gmap strings list pretty.

Local Open Scope Qc_scope.

(** ** Generic helpers *)

(** A Python [for x in l: body] that threads the state [s]. *)
Definition for_each {A S : Type} (l : list A) (body : A -> S -> S) (s : S) : S :=
  fold_left (fun s a => body a s) l s.

(** [itertools.product(l1, l2)]: pairs in lexicographic order. *)
Definition product {A B : Type} (l1 : list A) (l2 : list B) : list (A * B) :=
  flat_map (fun a => map (fun b => (a, b)) l2) l1.

(** [range(a, b)] for naturals. *)
Definition range (a b : nat) : list nat := seq a (b - a).

(** The rational [n / d]. *)
Definition qc (n : Z) (d : positive) : Qc := Q2Qc (n # d).

(** ** Tactics *)

(** closed statements are settled by evaluation *)
Ltac by_evaluation :=
  match goal with
  | |- ?P => apply (bool_decide_eq_true_1 P); vm_compute; reflexivity
  end.

(** split an equation between lists of the same shape into its entries *)
Ltac list_entries :=
  repeat match goal with
         | |- _ :: _ = _ :: _ => f_equal
         | |- [] = [] => reflexivity
         end.

(** ** Complex numbers with rational parts *)

Module Cplx.

Record C : Type := mkC { re : Qc; im : Qc }.

Definition C0 : C := mkC 0 0.
Definition C1 : C := mkC 1 0.
Definition Ci : C := mkC 0 1.
Definition Cadd (a b : C) : C := mkC (re a + re b) (im a + im b).
Definition Copp (a : C) : C := mkC (- re a) (- im a).
Definition Csub (a b : C) : C := mkC (re a - re b) (im a - im b).
Definition Cmul (a b : C) : C :=
  mkC (re a * re b - im a * im b) (re a * im b + im a * re b).
(** real scalar times complex *)
Definition Cscale (x : Qc) (a : C) : C := mkC (x * re a) (x * im a).
Definition Cnorm2 (a : C) : Qc := re a * re a + im a * im a.
(** [1 / a]; as in [Qc], the inverse of zero is zero *)
Definition Cinv (a : C) : C :=
  mkC (re a / Cnorm2 a) (- im a / Cnorm2 a).

#[global] Instance C_eq_dec : EqDecision C.
Proof. solve_decision. Defined.

#[global] Instance C_inhabited : Inhabited C := populate C0.

End Cplx.

(** ** Fermionic operators ([triqs.operators])

    An [Operator] is a sum of monomials in the canonical operators
    [c_dag(block, i)] and [c(block, i)] with scalar coefficients; the
    operator notebook states that [n] is [c_dag * c] and that expressions
    are simplified with the anticommutation relations.  The framework
    keeps such sums in normal order; here a sum is kept as written and two
    operators are compared through their matrices on the Fock space of the
    flavours, on which the canonical anticommutation relations hold
    ([OperatorsFacts.car_on_fock_space]). *)

Module Operators.

(** The scalars of an operator expression. *)
Class Coeff (R : Type) : Type := {
  r0 : R; r1 : R;
  radd : R -> R -> R; rmul : R -> R -> R;
  rsub : R -> R -> R; ropp : R -> R }.

#[global] Instance Qc_Coeff : Coeff Qc :=
  {| r0 := 0; r1 := 1; radd := Qcplus; rmul := Qcmult;
     rsub := Qcminus; ropp := Qcopp |}.

Inductive canonical : Type :=
| Cdag (block : string) (idx : nat)
| Cann (block : string) (idx : nat).

Definition monomial : Type := list canonical.

Definition flavour : Type := (string * nat)%type.

(** occupation numbers, in the order of the list of flavours *)
Definition fock : Type := list bool.

Section WithCoeff.
Context {R : Type} `{Coeff R}.

Definition Operator : Type := list (R * monomial).

(** [Operator()] *)
Definition Operator_empty : Operator := [].
(** the identity, the empty product *)
Definition op_one : Operator := [(r1, [])].
Definition c_dag (b : string) (i : nat) : Operator := [(r1, [Cdag b i])].
Definition c (b : string) (i : nat) : Operator := [(r1, [Cann b i])].
(** [a * A] for a number [a] *)
Definition op_scale (a : R) (A : Operator) : Operator :=
  map (fun t => (rmul a (fst t), snd t)) A.
(** [A * B] *)
Definition op_mul (A B : Operator) : Operator :=
  flat_map (fun t => map (fun u => (rmul (fst t) (fst u), snd t ++ snd u)) B) A.
(** [A + B], and [A += B] *)
Definition op_add (A B : Operator) : Operator := A ++ B.
(** [n(b, i)] is [c_dag(b, i) * c(b, i)] *)
Definition n (b : string) (i : nat) : Operator := op_mul (c_dag b i) (c b i).
(** [A * B + B * A] *)
Definition anticommutator (A B : Operator) : Operator :=
  op_add (op_mul A B) (op_mul B A).

(** *** Action on the Fock space *)

Definition flavour_index (fops : list flavour) (f : flavour) : option nat :=
  fst <$> list_find (fun g => g = f) fops.

(** the sign picked up when crossing the occupied flavours before [k] *)
Definition parity_before (k : nat) (s : fock) : bool :=
  fold_right xorb false (take k s).

(** Modelled from the spec: the fermionic operators are the framework's.
    Creation ([create = true]) or annihilation on the flavour number [k]
    of a Fock state, with the sign of the occupied flavours before it. *)
Definition act_at (create : bool) (k : nat) (s : fock) : option (bool * fock) :=
  match s !! k with
  | Some occ =>
      if eqb occ create then None
      else Some (parity_before k s, <[k := create]> s)
  | None => None
  end.

Definition act (fops : list flavour) (o : canonical) (s : fock)
  : option (bool * fock) :=
  match o with
  | Cdag b i => k ← flavour_index fops (b, i); act_at true k s
  | Cann b i => k ← flavour_index fops (b, i); act_at false k s
  end.

(** [o1 * o2 * ... * ok] applied to the basis state [s]: [ok] acts first.
    The result is a sign ([true]: minus) and a basis state, or [None]
    when the state is annihilated. *)
Fixpoint apply_monomial (fops : list flavour) (m : monomial) (s : fock)
  : option (bool * fock) :=
  match m with
  | [] => Some (false, s)
  | o :: m' =>
      match apply_monomial fops m' s with
      | Some (sg, s') =>
          match act fops o s' with
          | Some (sg', s'') => Some (xorb sg sg', s'')
          | None => None
          end
      | None => None
      end
  end.

(** the contribution of [a * m] to the matrix element <s'| . |s> *)
Definition term_element (fops : list flavour) (t : R * monomial) (s' s : fock) : R :=
  match apply_monomial fops (snd t) s with
  | Some (sg, s'') =>
      if bool_decide (s'' = s') then (if sg then ropp (fst t) else fst t) else r0
  | None => r0
  end.

Definition matrix_element (fops : list flavour) (A : Operator) (s' s : fock) : R :=
  fold_right (fun t acc => radd (term_element fops t s' s) acc) r0 A.

(** all occupation lists of [k] flavours *)
Fixpoint fock_basis (k : nat) : list fock :=
  match k with
  | O => [[]]
  | S k' => flat_map (fun s => [false :: s; true :: s]) (fock_basis k')
  end.

Definition op_matrix (fops : list flavour) (A : Operator) : list (list R) :=
  let basis := fock_basis (length fops) in
  map (fun s' => map (fun s => matrix_element fops A s' s) basis) basis.

(** *** The interaction of [scripts/two_band.py] *)

(** ['up-%s' % o] *)
Definition blk (spin : string) (o : nat) : string := spin +:+ "-" +:+ pretty o.

Definition h_int (n_orbitals : nat) (U J : R) : Operator :=
  let two := radd r1 r1 in
  let three := radd two r1 in
  let h := Operator_empty in
  let h := for_each (range 0 n_orbitals) (fun o h =>
             op_add h (op_mul (op_scale U (n (blk "up" o) 0)) (n (blk "down" o) 0))) h in
  let h := for_each (product (range 0 n_orbitals) (range 0 n_orbitals)) (fun '(o1, o2) h =>
             if Nat.eqb o1 o2 then h else
             op_add h (op_mul (op_scale (rsub U (rmul two J)) (n (blk "up" o1) 0))
                              (n (blk "down" o2) 0))) h in
  let h := for_each (product (range 0 n_orbitals) (range 0 n_orbitals)) (fun '(o1, o2) h =>
             if Nat.leb o1 o2 then h else
             let h := op_add h (op_mul (op_scale (rsub U (rmul three J)) (n (blk "up" o1) 0))
                                       (n (blk "up" o2) 0)) in
             op_add h (op_mul (op_scale (rsub U (rmul three J)) (n (blk "down" o1) 0))
                              (n (blk "down" o2) 0))) h in
  let h := for_each (product (range 0 n_orbitals) (range 0 n_orbitals)) (fun '(o1, o2) h =>
             if Nat.eqb o1 o2 then h else
             let h := op_add h
               (op_mul (op_mul (op_mul (op_scale (ropp J) (c_dag (blk "up" o1) 0))
                                       (c_dag (blk "down" o1) 0))
                               (c (blk "up" o2) 0))
                       (c (blk "down" o2) 0)) in
             op_add h
               (op_mul (op_mul (op_mul (op_scale (ropp J) (c_dag (blk "up" o1) 0))
                                       (c_dag (blk "down" o2) 0))
                               (c (blk "up" o2) 0))
                       (c (blk "down" o1) 0))) h in
  h.

(** *** The Hubbard-Kanamori Hamiltonian, as the notebook writes it

    H_HK = U sum_i n_iu n_id + (U-2J) sum_{i<>i'} n_iu n_i'd
         + (U-3J) sum_{i<i', s} n_is n_i's
         - J sum_{i<>i'} a+_iu a_id a+_i'd a_i'u
         + J sum_{i<>i'} a+_iu a+_id a_i'd a_i'u *)

Definition op_sum {A : Type} (l : list A) (f : A -> Operator) : Operator :=
  flat_map f l.

Definition a_dag (spin : string) (i : nat) : Operator := c_dag (blk spin i) 0.
Definition a (spin : string) (i : nat) : Operator := c (blk spin i) 0.
Definition n_ (spin : string) (i : nat) : Operator := op_mul (a_dag spin i) (a spin i).

Definition orbital_pairs (norb : nat) (keep : nat -> nat -> bool) : list (nat * nat) :=
  filter (fun p => keep (fst p) (snd p) = true) (product (range 0 norb) (range 0 norb)).

Definition H_HK (norb : nat) (U J : R) : Operator :=
  let two := radd r1 r1 in
  let three := radd two r1 in
  let ne := fun i i' => negb (Nat.eqb i i') in
  op_add (op_add (op_add (op_add
    (op_scale U (op_sum (range 0 norb) (fun i => op_mul (n_ "up" i) (n_ "down" i))))
    (op_scale (rsub U (rmul two J))
       (op_sum (orbital_pairs norb ne) (fun p => op_mul (n_ "up" (fst p)) (n_ "down" (snd p))))))
    (op_scale (rsub U (rmul three J))
       (op_sum (orbital_pairs norb Nat.ltb) (fun p =>
          op_sum ["up"; "down"] (fun s => op_mul (n_ s (fst p)) (n_ s (snd p)))))))
    (op_scale (ropp J)
       (op_sum (orbital_pairs norb ne) (fun p =>
          op_mul (op_mul (op_mul (a_dag "up" (fst p)) (a "down" (fst p)))
                         (a_dag "down" (snd p))) (a "up" (snd p))))))
    (op_scale J
       (op_sum (orbital_pairs norb ne) (fun p =>
          op_mul (op_mul (op_mul (a_dag "up" (fst p)) (a_dag "down" (fst p)))
                         (a "down" (snd p))) (a "up" (snd p))))).

End WithCoeff.

Arguments Operator R : clear implicits.

(** the flavours of the two-orbital solver,
    [gf_struct = [('up-0',1), ('up-1',1), ('down-0',1), ('down-1',1)]] *)
Definition two_band_fops : list flavour :=
  [("up-0", 0%nat); ("up-1", 0%nat); ("down-0", 0%nat); ("down-1", 0%nat)].

End Operators.

(** ** Meshes and the Lindhard bubble (the C++ cell [bubble]) *)

Module Lindhard.
Import Cplx.

Inductive statistic_enum : Type := Boson | Fermion.

(** [gf_mesh<imtime>{beta, statistic, n_tau}] *)
Record imtime : Type := {
  it_beta : Qc;
  it_statistic : statistic_enum;
  it_size : nat }.

(** [cyclat]: the real-space lattice with periodic boundary conditions;
    [dims] are its three periods *)
Record cyclat : Type := { dims : Z * Z * Z }.

(** a lattice displacement, by its three integer coordinates *)
Definition lattice_point : Type := (Z * Z * Z)%type.

(** [-r] *)
Definition lat_neg (r : lattice_point) : lattice_point :=
  let '(i, j, k) := r in ((- i)%Z, (- j)%Z, (- k)%Z).

(** [mr.size()] *)
Definition cyclat_size (mr : cyclat) : nat :=
  let '(L1, L2, L3) := dims mr in Z.to_nat (L1 * L2 * L3).

(** the coordinates of the mesh point number [n], last coordinate fastest *)
Definition cyclat_point (mr : cyclat) (n : nat) : lattice_point :=
  let '(L1, L2, L3) := dims mr in
  let z := Z.of_nat n in
  ((z / (L2 * L3))%Z, ((z / L3) mod L2)%Z, (z mod L3)%Z).

(** A function of (r, tau), [gf<prod<cyclat, imtime>, scalar_valued>]:
    [rt_data] is indexed by the number of the lattice point, then by the
    number of the time point. *)
Record g_r_t : Type := {
  rt_mesh : cyclat * imtime;
  rt_data : list (list C) }.

(** [g_r_t{{mr, mtb}}]: a function on the mesh, filled with zeros *)
Definition g_r_t_new (mr : cyclat) (mt : imtime) : g_r_t :=
  {| rt_mesh := (mr, mt);
     rt_data := replicate (cyclat_size mr) (replicate (it_size mt) C0) |}.

(** [g[r, t] = v] for the mesh points number [n] and [j]; as for a
    C++ array view, nothing is checked and an index outside the array
    is not modelled: the loops of [bubble] stay inside. *)
Definition rt_set (g : g_r_t) (n j : nat) (v : C) : g_r_t :=
  {| rt_mesh := rt_mesh g;
     rt_data := alter (fun row => <[j := v]> row) n (rt_data g) |}.

(** [g[r, t]] *)
Definition rt_get (g : g_r_t) (n j : nat) : option C :=
  rt_data g !! n ≫= (fun row => row !! j).

Section Bubble.
(** The framework: the type of the argument, a function of
    (k, omega); the two Fourier transforms
    [make_gf_from_fourier<0,1>]; the evaluation [g(r, tau)] at a
    lattice point and a real time; the time of a mesh point. *)
Variable g_k_w : Type.
Variable make_gf_from_fourier : g_k_w -> g_r_t.
Variable make_gf_from_fourier_back : g_r_t -> g_k_w.
Variable evaluate : g_r_t -> lattice_point -> Qc -> C.
Variable tau_value : imtime -> nat -> Qc.

(** A new mesh for chi, with a bosonic statistics, but same size as mt. *)
Definition bubble_mtb (mt : imtime) : imtime :=
  let beta := it_beta mt in
  {| it_beta := beta; it_statistic := Boson; it_size := it_size mt |}.

(** [chi0[r, t] = 2*grt(-r, beta - t) * grt(r, t)] *)
Definition bubble_value (grt : g_r_t) (beta : Qc) (mr : cyclat) (mtb : imtime)
    (n j : nat) : C :=
  let r := cyclat_point mr n in
  let t := tau_value mtb j in
  Cmul (Cscale (qc 2 1) (evaluate grt (lat_neg r) (beta - t))) (evaluate grt r t).

(** chi(r, tau), before it is transformed back *)
Definition bubble_chi0 (G0 : g_k_w) : g_r_t :=
  let grt := make_gf_from_fourier G0 in
  let '(mr, mt) := rt_mesh grt in
  let beta := it_beta mt in
  let mtb := bubble_mtb mt in
  let chi0 := g_r_t_new mr mtb in
  for_each (range 0 (cyclat_size mr)) (fun n chi0 =>
    for_each (range 0 (it_size mtb)) (fun j chi0 =>
      rt_set chi0 n j (bubble_value grt beta mr mtb n j)) chi0) chi0.

Definition bubble (G0 : g_k_w) : g_k_w :=
  make_gf_from_fourier_back (bubble_chi0 G0).
End Bubble.

(** *** Evaluation on the (r, tau) grid

    Modelled from the spec: the evaluation operator [g(r, tau)] belongs
    to the framework.  The lattice argument wraps around the periods of
    the mesh; the time argument is interpolated linearly between its two
    neighbours on the mesh, the time points being [j * beta / (n - 1)].
    At the points r = 0, tau = 0 and tau = beta this is the stored grid
    value.  Outside [0, beta] the framework raises; the model reads a
    zero there. *)

(** Modelled from the spec: the framework's wraparound of a lattice point
    into the periods of the mesh, as the number of the mesh point. *)
Definition wrap_index (mr : cyclat) (r : lattice_point) : nat :=
  let '(L1, L2, L3) := dims mr in
  let '(i, j, k) := r in
  Z.to_nat (((i mod L1) * L2 + (j mod L2)) * L3 + (k mod L3)).

(** Modelled from the spec: the framework's time of the mesh point number
    [j], on a mesh of [it_size] equidistant points from 0 to beta. *)
Definition tau_point (mt : imtime) (j : nat) : Qc :=
  qc (Z.of_nat j) 1 * it_beta mt / qc (Z.of_nat (it_size mt) - 1) 1.

Definition row_at (row : list C) (i : Z) : C := default C0 (row !! Z.to_nat i).

(** Modelled from the spec: the framework's linear interpolation in time;
    the last point, tau = beta, is read with weight one. *)
Definition interpolate (mt : imtime) (row : list C) (tau : Qc) : C :=
  let last := (Z.of_nat (it_size mt) - 1)%Z in
  let a := tau * qc last 1 / it_beta mt in
  let i0 := Qfloor (this a) in
  let i := if (i0 =? last)%Z then (i0 - 1)%Z else i0 in
  let w := if (i0 =? last)%Z then 1 else a - qc i0 1 in
  Cadd (Cscale (1 - w) (row_at row i)) (Cscale w (row_at row (i + 1))).

(** Modelled from the spec: the framework's call [g(r, tau)]. *)
Definition evaluate_rt (g : g_r_t) (r : lattice_point) (tau : Qc) : C :=
  let '(mr, mt) := rt_mesh g in
  interpolate mt (default [] (rt_data g !! wrap_index mr r)) tau.

(** the stored value, zero outside the grid *)
Definition rt_value (g : g_r_t) (n j : nat) : C := default C0 (rt_get g n j).

(** the bubble of a function given on the (r, tau) grid, with the
    evaluation above *)
Definition chi0_on_grid (grt : g_r_t) : g_r_t :=
  bubble_chi0 g_r_t (fun g => g) evaluate_rt tau_point grt.

(** *** A toy grid: 3 lattice points on a ring, 3 time points, beta = 2 *)

Definition toy_mr : cyclat := {| dims := (3, 1, 1)%Z |}.
Definition toy_mt : imtime :=
  {| it_beta := qc 2 1; it_statistic := Fermion; it_size := 3 |}.

Definition toy_grt : g_r_t :=
  {| rt_mesh := (toy_mr, toy_mt);
     rt_data :=
       [ [mkC (qc 1 1) 0;      mkC (qc 1 2) (qc 1 1);  mkC (qc 2 1) 0];
         [mkC 0 (qc 1 1);      mkC (qc 3 1) 0;         mkC (qc 1 1) (qc 1 1)];
         [mkC (qc (-1) 1) 0;   mkC (qc 1 4) 0;         mkC 0 (qc 2 1)] ] |}.

End Lindhard.

(** ** Functions of (k, omega): evaluation and partial evaluation

    Modelled from the spec: the call operator of a Green's function,
    [G(k, n)] and [G(k0, all)], belongs to the framework.  The notebook and
    the spec describe it: a momentum is interpolated linearly, axis by
    axis, between the grid points around it (with the periodicity of the
    Brillouin zone), a Matsubara index is looked up, and the partial
    evaluation [G(k0, all)] is a function of the frequency on the
    frequency mesh of [G].  A momentum is given here in units of the
    reciprocal lattice vectors: [(1/2, 1/2, 0)] is the notebook's
    [(pi, pi, 0)]. *)

Module Multivar.
Import Cplx Lindhard.

(** [MeshBrZone(bz, n_k)]: the numbers of k-points along the three axes *)
Record brzone : Type := { bz_dims : Z * Z * Z }.

(** [MeshImFreq(beta, S, n_iw)] *)
Record imfreq : Type := {
  iw_beta : Qc;
  iw_statistic : statistic_enum;
  n_iw : nat }.

(** the first Matsubara index of the mesh *)
Definition iw_first (m : imfreq) : Z :=
  match iw_statistic m with
  | Fermion => (- Z.of_nat (n_iw m))%Z
  | Boson => (- (Z.of_nat (n_iw m) - 1))%Z
  end.

Definition iw_size (m : imfreq) : nat :=
  match iw_statistic m with
  | Fermion => (2 * n_iw m)%nat
  | Boson => (2 * n_iw m - 1)%nat
  end.

(** where the Matsubara index [n] is stored; [None] outside the mesh *)
Definition iw_position (m : imfreq) (n : Z) : option nat :=
  let p := (n - iw_first m)%Z in
  if ((0 <=? p) && (p <? Z.of_nat (iw_size m)))%Z then Some (Z.to_nat p) else None.

Definition momentum : Type := (Qc * Qc * Qc)%type.

(** [Gf(mesh = MeshProduct(k_mesh, iw_mesh), target_shape = [])]: [kw_data]
    is indexed by the number of the k-point, then by the position of the
    frequency. *)
Record g_k_w : Type := {
  kw_mesh : brzone * imfreq;
  kw_data : list (list C) }.

(** a function of the Matsubara frequency only *)
Record g_w : Type := {
  w_mesh : imfreq;
  w_data : list C }.

(** the stored value, zero outside the grid *)
Definition kw_get (G : g_k_w) (m p : nat) : C :=
  default C0 (kw_data G !! m ≫= (fun row => row !! p)).

(** the number of the k-point with the integer coordinates [i], wrapped
    into the Brillouin zone *)
Definition bz_index (mk : brzone) (i : lattice_point) : nat :=
  wrap_index {| dims := bz_dims mk |} i.

(** along one axis with [L] points: the grid point below [q] and the
    fractional offset from it *)
Definition axis_cell (L : Z) (q : Qc) : Z * Qc :=
  let a := q * qc L 1 in
  let i := Qfloor (this a) in
  (i, a - qc i 1).

Definition lerp (w : Qc) (x y : C) : C := Cadd (Cscale (1 - w) x) (Cscale w y).

(** the grid point next to [i] along an axis, or [i] itself *)
Definition step (i : Z) (far : bool) : Z := if far then (i + 1)%Z else i.

(** Modelled from the spec: the framework's interpolation in k, here of
    the column [p] of the data, by linear interpolation along each axis
    between the grid points around [k]. *)
Definition interp_k (G : g_k_w) (k : momentum) (p : nat) : C :=
  let mk := fst (kw_mesh G) in
  let '(L1, L2, L3) := bz_dims mk in
  let '(q1, q2, q3) := k in
  let '(i1, w1) := axis_cell L1 q1 in
  let '(i2, w2) := axis_cell L2 q2 in
  let '(i3, w3) := axis_cell L3 q3 in
  let v := fun a b c : bool =>
    kw_get G (bz_index mk (step i1 a, step i2 b, step i3 c)) p in
  lerp w1 (lerp w2 (lerp w3 (v false false false) (v false false true))
                   (lerp w3 (v false true false) (v false true true)))
          (lerp w2 (lerp w3 (v true false false) (v true false true))
                   (lerp w3 (v true true false) (v true true true))).

(** Modelled from the spec: the framework's call [G(k, n)], with the
    momentum interpolated and the integer Matsubara index looked up;
    [None] when the index is outside the mesh. *)
Definition evaluate (G : g_k_w) (k : momentum) (n : Z) : option C :=
  p ← iw_position (snd (kw_mesh G)) n; Some (interp_k G k p).

(** Modelled from the spec: the framework's partial evaluation
    [G(k0, all)], a function of the frequency that shares the frequency
    mesh of [G]. *)
Definition partial_eval (G : g_k_w) (k0 : momentum) : g_w :=
  {| w_mesh := snd (kw_mesh G);
     w_data := map (interp_k G k0) (seq 0 (iw_size (snd (kw_mesh G)))) |}.

(** the weight of a corner of the cell along one axis *)
Definition corner_weight (w : Qc) (far : bool) : Qc := if far then w else 1 - w.

Definition corners : list (bool * bool * bool) :=
  [ (false, false, false); (false, false, true); (false, true, false); (false, true, true);
    (true, false, false); (true, false, true); (true, true, false); (true, true, true) ].

(** multilinear interpolation: the values at the eight corners of the
    cell, each weighted by the product of its weights along the axes *)
Definition multilinear (w1 w2 w3 : Qc) (v : bool -> bool -> bool -> C) : C :=
  fold_right Cadd C0
    (map (fun c : bool * bool * bool =>
            let '(a, b, c) := c in
            Cscale (corner_weight w1 a * corner_weight w2 b * corner_weight w3 c) (v a b c))
         corners).

(** the momentum of the grid point with the integer coordinates [i] *)
Definition grid_momentum (mk : brzone) (i : lattice_point) : momentum :=
  let '(L1, L2, L3) := bz_dims mk in
  let '(i1, i2, i3) := i in
  (qc i1 1 / qc L1 1, qc i2 1 / qc L2 1, qc i3 1 / qc L3 1).

(** *** A toy function: 2 x 2 k-points, the two lowest fermionic frequencies *)

Definition toy_kw : g_k_w :=
  {| kw_mesh := ({| bz_dims := (2, 2, 1)%Z |},
                 {| iw_beta := qc 2 1; iw_statistic := Fermion; n_iw := 1 |});
     kw_data :=
       [ [mkC (qc 1 1) (qc 1 1);  mkC (qc 1 1) (qc (-1) 1)];
         [mkC 0 (qc 1 2);         mkC 0 (qc (-1) 2)];
         [mkC (qc 3 1) 0;         mkC (qc 3 1) (qc 1 1)];
         [mkC (qc (-1) 1) (qc 2 1);  mkC (qc (-1) 1) (qc (-2) 1)] ] |}.

End Multivar.

(** ** The DMFT scripts: [one_band.py], [two_band.py] and the IPT loop *)

Module DMFT.
Import Operators.

(** The keyword arguments of [Solver.solve]. *)
Record solve_params : Type := {
  n_cycles : Z;
  length_cycle : option Z;
  n_warmup_cycles : Z }.

(** What the scripts use of [triqs.gf] and [triqs_cthyb]: block Green's
    functions on the solver's Matsubara mesh with their arithmetic, the
    descriptors [iOmega_n], [SemiCircular] and [inverse], and the Monte
    Carlo solver.  The solver is a function of everything it can read:
    its hidden state (random generator, configuration), [G0_iw], the
    Hamiltonian and the sampling parameters. *)
Class Framework (gf hidden : Type) : Type := {
  gf_zero : gf;
  gf_add : gf -> gf -> gf;
  gf_sub : gf -> gf -> gf;
  gf_scale : Qc -> gf -> gf;
  gf_shift : gf -> Qc -> gf;
  inverse : gf -> gf;
  iOmega_n : gf;
  SemiCircular : Qc -> gf;
  density : gf -> Qc;
  cthyb_init : Qc -> list (string * nat) -> hidden;
  cthyb_G : hidden -> gmap string gf -> Operator Qc -> solve_params -> string -> gf;
  cthyb_Sigma : hidden -> gmap string gf -> Operator Qc -> solve_params -> string -> gf;
  cthyb_next : hidden -> gmap string gf -> Operator Qc -> solve_params -> hidden }.

(** standard output, line by line *)
Inductive output : Type :=
| PrintU (U : Qc)
| PrintIteration (i n : nat)
| PrintDensity (name : string) (d : Qc).

Section Scripts.
Context {gf hidden : Type} `{Framework gf hidden}.

(** The [Solver] object: three block Green's functions with the blocks
    of [gf_struct], and the solver's own state. *)
Record Solver : Type := {
  G_iw : gmap string gf;
  G0_iw : gmap string gf;
  Sigma_iw : gmap string gf;
  internal : hidden }.

Definition new_blocks (gf_struct : list (string * nat)) : gmap string gf :=
  list_to_map (map (fun b => (fst b, gf_zero)) gf_struct).

(** [Solver(beta = beta, gf_struct = gf_struct)] *)
Definition Solver_new (beta : Qc) (gf_struct : list (string * nat)) : Solver :=
  {| G_iw := new_blocks gf_struct;
     G0_iw := new_blocks gf_struct;
     Sigma_iw := new_blocks gf_struct;
     internal := cthyb_init beta gf_struct |}.

(** [S.solve(h_int = ..., n_cycles = ..., ...)] fills the blocks of
    [S.G_iw] and [S.Sigma_iw] in place. *)
Definition solve (S : Solver) (h : Operator Qc) (p : solve_params) : Solver :=
  {| G_iw := map_imap (fun name _ => Some (cthyb_G (internal S) (G0_iw S) h p name)) (G_iw S);
     G0_iw := G0_iw S;
     Sigma_iw := map_imap (fun name _ => Some (cthyb_Sigma (internal S) (G0_iw S) h p name)) (Sigma_iw S);
     internal := cthyb_next (internal S) (G0_iw S) h p |}.

(** [B << g]: every block of the block function [B] is set to [g]. *)
Definition assign_all (g : gf) (B : gmap string gf) : gmap string gf :=
  (fun _ => g) <$> B.

(** [B[name]]; the scripts name blocks of [gf_struct] only, and a block
    that is missing, a [KeyError] in Python, reads as zero here *)
Definition block (B : gmap string gf) (name : string) : gf :=
  default gf_zero (B !! name).

(** The archives: path, then key, then the stored block function. *)
Record World : Type := {
  S : Solver;
  stdout : list output;
  files : gmap string (gmap string (gmap string gf)) }.

Definition print (o : output) (w : World) : World :=
  {| S := S w; stdout := stdout w ++ [o]; files := files w |}.

Definition with_solver (f : Solver -> Solver) (w : World) : World :=
  {| S := f (S w); stdout := stdout w; files := files w |}.

(** [with HDFArchive(path) as A: A[key] = B], when the archive opens:
    it is opened in append mode, a file that does not exist is created
    and an existing file keeps its other keys.  The open raises when the
    directory of the file does not exist: [two_band.py] and the copies
    of [one_band.py] in the two-orbital notebooks create their directory
    first, the cell of the single-orbital notebook does not, and
    [DMFTFiles.one_band_cell] is that cell with its directory. *)
Definition archive_write (path key : string) (B : gmap string gf) (w : World) : World :=
  {| S := S w; stdout := stdout w;
     files := <[path := <[key := B]> (default ∅ (files w !! path))]> (files w) |}.

(** ["%.2f" % x], for the values the scripts format, which are
    multiples of a hundredth and not negative: nothing is rounded there
    and no sign is printed *)
Definition fmt_2f (x : Qc) : string :=
  let c := Qfloor (this (x * qc 100 1 + qc 1 2)) in
  let frac := (c mod 100)%Z in
  pretty (c / 100)%Z +:+ "." +:+ (if (frac <? 10)%Z then "0" else "") +:+ pretty frac.

(** *** Parameters of the model *)
Definition t : Qc := 1.
Definition beta : Qc := qc 10 1.
Definition n_loops : nat := 10.

(** [np.arange(1.0, 13.0)] *)
Definition U_values : list Qc := map (fun k => qc (Z.of_nat k) 1) (range 1 13).

(** *** [scripts/one_band.py] *)

Definition one_band_gf_struct : list (string * nat) := [("up", 1%nat); ("down", 1%nat)].

Definition one_band_params : solve_params :=
  {| n_cycles := 10000%Z; length_cycle := None; n_warmup_cycles := 5000%Z |}.

(** [U * n('up',0) * n('down',0)] *)
Definition one_band_h_int (U : Qc) : Operator Qc :=
  op_mul (op_scale U (n "up" 0)) (n "down" 0).

Definition one_band_path (U : Qc) : string :=
  "data/one_band/half-U" +:+ fmt_2f U +:+ ".h5".

(** the symmetrized Green's function, [0.5 * (S.G_iw['up'] + S.G_iw['down'])] *)
Definition one_band_g (s : Solver) : gf :=
  gf_scale (qc 1 2) (gf_add (block (G_iw s) "up") (block (G_iw s) "down")).

(** [inverse(iOmega_n + mu - t**2 * g)] *)
Definition bethe_G0 (mu : Qc) (g : gf) : gf :=
  inverse (gf_sub (gf_shift iOmega_n mu) (gf_scale (t ^ 2) g)).

(** Symmetrize the Green's function and use self-consistency:
<<
    g = 0.5 * ( S.G_iw['up'] + S.G_iw['down'] )
    for name, g0 in S.G0_iw:
        g0 << inverse( iOmega_n + U/2.0 - t**2 * g )
>> *)
Definition one_band_update (U : Qc) (s : Solver) : Solver :=
  let g := one_band_g s in
  {| G_iw := G_iw s;
     G0_iw := assign_all (bethe_G0 (U / qc 2 1) g) (G0_iw s);
     Sigma_iw := Sigma_iw s;
     internal := internal s |}.

(** the body of [for i in range(n_loops)] *)
Definition one_band_iteration (U : Qc) (i : nat) (w : World) : World :=
  let w := print (PrintIteration (i + 1) n_loops) w in
  let w := with_solver (one_band_update U) w in
  let w := with_solver (fun s => solve s (one_band_h_int U) one_band_params) w in
  let w := archive_write (one_band_path U) ("G-" +:+ pretty i) (G_iw (S w)) w in
  archive_write (one_band_path U) ("Sigma-" +:+ pretty i) (Sigma_iw (S w)) w.

(** the first guess, [S.G_iw << SemiCircular(2*t)] *)
Definition one_band_start (U : Qc) (w : World) : World :=
  let w := print (PrintU U) w in
  with_solver (fun s =>
    {| G_iw := assign_all (SemiCircular (qc 2 1 * t)) (G_iw s);
       G0_iw := G0_iw s; Sigma_iw := Sigma_iw s; internal := internal s |}) w.

(** the state at the top of iteration [i] of the DMFT loop for [U] *)
Definition one_band_top (U : Qc) (i : nat) (w : World) : World :=
  for_each (range 0 i) (one_band_iteration U) (one_band_start U w).

(** the body of [for U in np.arange(1.0, 13.0)] *)
Definition one_band_U (U : Qc) (w : World) : World :=
  for_each (range 0 n_loops) (one_band_iteration U) (one_band_start U w).

(** the whole script, run where the archives hold [files0] and the
    directory [data/one_band] exists *)
Definition one_band_init (files0 : gmap string (gmap string (gmap string gf))) : World :=
  {| S := Solver_new beta one_band_gf_struct; stdout := []; files := files0 |}.

Definition one_band (files0 : gmap string (gmap string (gmap string gf))) : World :=
  for_each U_values one_band_U (one_band_init files0).

(** *** [scripts/two_band.py] *)

Inductive filling_t : Type := half | quarter.

Definition filling_name (f : filling_t) : string :=
  match f with half => "half" | quarter => "quarter" end.

Definition n_orbitals : nat := 2.

Definition two_band_gf_struct : list (string * nat) :=
  [("up-0", 1%nat); ("up-1", 1%nat); ("down-0", 1%nat); ("down-1", 1%nat)].

Definition two_band_params : solve_params :=
  {| n_cycles := 30000%Z; length_cycle := Some 100%Z; n_warmup_cycles := 5000%Z |}.

(** Expression of mu for half and quarter filling *)
Definition two_band_mu (filling : filling_t) (coeff U J : Qc) : Qc :=
  match filling with
  | half =>
      qc 1 2 * U + qc 1 2 * (U - qc 2 1 * J) + qc 1 2 * (U - qc 3 1 * J)
  | quarter =>
      qc (-81) 100 + (qc 6899 10000 - qc 11099 10000 * coeff) * U
      + (- qc 2548 100000 + qc 2709 100000 * coeff - qc 1606 10000 * coeff ^ 2) * U ^ 2
  end.

Definition two_band_path (filling : filling_t) (U J : Qc) : string :=
  "data/two_bands/" +:+ filling_name filling +:+ "-U" +:+ fmt_2f U
    +:+ "-J" +:+ fmt_2f J +:+ ".h5".

(** [0.25 * (S.G_iw['up-0'] + S.G_iw['up-1'] + S.G_iw['down-0'] + S.G_iw['down-1'])] *)
Definition two_band_g (s : Solver) : gf :=
  gf_scale (qc 1 4)
    (gf_add (gf_add (gf_add (block (G_iw s) "up-0") (block (G_iw s) "up-1"))
                    (block (G_iw s) "down-0"))
            (block (G_iw s) "down-1")).

(** Symmetrize the Green's function and use self-consistency:
<<
    if i > 0:
        g = 0.25 * ( S.G_iw['up-0'] + ... + S.G_iw['down-1'] )
        for name, g0 in S.G0_iw:
            g0 << inverse(iOmega_n + mu - t**2 * g)
>> *)
Definition two_band_update (mu : Qc) (i : nat) (s : Solver) : Solver :=
  if (0 <? i)%nat then
    let g := two_band_g s in
    {| G_iw := G_iw s;
       G0_iw := assign_all (bethe_G0 mu g) (G0_iw s);
       Sigma_iw := Sigma_iw s;
       internal := internal s |}
  else s.

(** [for name, g in S.G_iw: print(name, ": ", g.density()[0,0].real)] *)
Definition print_densities (w : World) : World :=
  for_each (map fst two_band_gf_struct)
    (fun name w => print (PrintDensity name (density (block (G_iw (S w)) name))) w) w.

Definition two_band_iteration (filling : filling_t) (mu U J : Qc) (i : nat) (w : World)
  : World :=
  let w := print (PrintIteration (i + 1) n_loops) w in
  let w := with_solver (two_band_update mu i) w in
  let w := with_solver (fun s => solve s (h_int n_orbitals U J) two_band_params) w in
  let w := print_densities w in
  let w := archive_write (two_band_path filling U J) ("G-" +:+ pretty i) (G_iw (S w)) w in
  archive_write (two_band_path filling U J) ("Sigma-" +:+ pretty i) (Sigma_iw (S w)) w.

(** the first guess,
    [S.G0_iw << inverse(iOmega_n + mu - t**2 * SemiCircular(2*t))] *)
Definition two_band_start (mu : Qc) (w : World) : World :=
  with_solver (fun s =>
    {| G_iw := G_iw s;
       G0_iw := assign_all (bethe_G0 mu (SemiCircular (qc 2 1 * t))) (G0_iw s);
       Sigma_iw := Sigma_iw s; internal := internal s |}) w.

(** the state at the top of iteration [i] of the DMFT loop for [coeff], [U] *)
Definition two_band_top (filling : filling_t) (coeff U : Qc) (i : nat) (w : World) : World :=
  let J := coeff * U in
  let mu := two_band_mu filling coeff U J in
  for_each (range 0 i) (two_band_iteration filling mu U J) (two_band_start mu w).

(** the body of [for U in np.arange(1.0, 13.0, 1.0)] *)
Definition two_band_U (filling : filling_t) (coeff U : Qc) (w : World) : World :=
  let J := coeff * U in
  let mu := two_band_mu filling coeff U J in
  for_each (range 0 n_loops) (two_band_iteration filling mu U J) (two_band_start mu w).

Definition two_band_init (files0 : gmap string (gmap string (gmap string gf))) : World :=
  {| S := Solver_new beta two_band_gf_struct; stdout := []; files := files0 |}.

Definition coeff_values : list Qc := [qc 0 1; qc 1 10; qc 2 10].

Definition two_band (filling : filling_t)
    (files0 : gmap string (gmap string (gmap string gf))) : World :=
  for_each coeff_values (fun coeff w =>
    for_each U_values (two_band_U filling coeff) w) (two_band_init files0).

(** *** What an iteration leaves in the solver

    [one_band_top U i w] is the loop itself run for [i] iterations, so
    [one_band_top U (i + 1) w] is the state when iteration [i] ends. *)

(** the solver has the blocks of [gf_struct] *)
Definition has_struct (gf_struct : list (string * nat)) (s : Solver) : Prop :=
  Forall (fun name =>
            is_Some (G_iw s !! name) /\ is_Some (G0_iw s !! name)
            /\ is_Some (Sigma_iw s !! name))
         (map fst gf_struct).

(** every block of [B] holds [g] *)
Definition all_blocks (gf_struct : list (string * nat)) (B : gmap string gf) (g : gf) : Prop :=
  forall name, name ∈ map fst gf_struct -> B !! name = Some g.

(** the block [name] of [B] holds [F name] *)
Definition all_blocks_are (gf_struct : list (string * nat)) (B : gmap string gf)
    (F : string -> gf) : Prop :=
  forall name, name ∈ map fst gf_struct -> B !! name = Some (F name).

(** Iteration [i] of the loop has set every block of [S.G0_iw] from the
    Green's function that the solver held when the iteration started,
    [S.G_iw], by [inverse(iOmega_n + mu - t**2 * g)]: when the
    iteration ends every block of [S.G0_iw] holds that function. *)
Definition one_band_G0_from_G (U : Qc) (i : nat) (w : World) : Prop :=
  all_blocks one_band_gf_struct (G0_iw (S (one_band_top U (i + 1) w)))
    (bethe_G0 (U / qc 2 1) (one_band_g (S (one_band_top U i w)))).

Definition two_band_G0_from_G (filling : filling_t) (coeff U : Qc) (i : nat) (w : World)
  : Prop :=
  all_blocks two_band_gf_struct (G0_iw (S (two_band_top filling coeff U (i + 1) w)))
    (bethe_G0 (two_band_mu filling coeff U (coeff * U))
       (two_band_g (S (two_band_top filling coeff U i w)))).

(** In iteration [i] the impurity problem has been solved for the
    [S.G0_iw] that the iteration leaves: every block of [S.G_iw] is what
    the solver returns for it. *)
Definition one_band_solved_for_G0 (U : Qc) (i : nat) (w : World) : Prop :=
  all_blocks_are one_band_gf_struct (G_iw (S (one_band_top U (i + 1) w)))
    (cthyb_G (internal (S (one_band_top U i w))) (G0_iw (S (one_band_top U (i + 1) w)))
       (one_band_h_int U) one_band_params).

Definition two_band_solved_for_G0 (filling : filling_t) (coeff U : Qc) (i : nat) (w : World)
  : Prop :=
  all_blocks_are two_band_gf_struct (G_iw (S (two_band_top filling coeff U (i + 1) w)))
    (cthyb_G (internal (S (two_band_top filling coeff U i w)))
       (G0_iw (S (two_band_top filling coeff U (i + 1) w)))
       (h_int n_orbitals U (coeff * U)) two_band_params).

(** the lines [Iteration = i / n] of an output *)
Definition iteration_lines (out : list output) : list (nat * nat) :=
  omap (fun o => match o with PrintIteration i n => Some (i, n) | _ => None end) out.

End Scripts.

Arguments Solver gf hidden : clear implicits.
Arguments World gf hidden : clear implicits.

(** *** The IPT loop of the single-orbital notebook (Solution 5)

    [IPTSolver] holds one-block functions on the Matsubara axis and on
    the imaginary-time axis; [Fourier] goes both ways. *)
Section Ipt.
Context {gf hidden : Type} `{Framework gf hidden}.
Variable gtau : Type.
Variable Fourier_to_tau : gf -> gtau.
Variable Fourier_to_iw : gtau -> gf.
Variable tau_zero : gtau.
Variable tau_mul : gtau -> gtau -> gtau.
Variable tau_scale : Qc -> gtau -> gtau.

Record IPTSolver : Type := {
  ipt_beta : Qc;
  ipt_G_iw : gf; ipt_G0_iw : gf; ipt_Sigma_iw : gf;
  ipt_G0_tau : gtau; ipt_Sigma_tau : gtau }.

Definition IPTSolver_new (beta : Qc) : IPTSolver :=
  {| ipt_beta := beta;
     ipt_G_iw := gf_zero; ipt_G0_iw := gf_zero; ipt_Sigma_iw := gf_zero;
     ipt_G0_tau := tau_zero; ipt_Sigma_tau := tau_zero |}.

Definition ipt_solve (U : Qc) (s : IPTSolver) : IPTSolver :=
  let G0_tau := Fourier_to_tau (ipt_G0_iw s) in
  let Sigma_tau := tau_mul (tau_mul (tau_scale (U ^ 2) G0_tau) G0_tau) G0_tau in
  let Sigma := Fourier_to_iw Sigma_tau in
  (* Dyson *)
  let G := inverse (gf_sub (inverse (ipt_G0_iw s)) Sigma) in
  {| ipt_beta := ipt_beta s;
     ipt_G_iw := G; ipt_G0_iw := ipt_G0_iw s; ipt_Sigma_iw := Sigma;
     ipt_G0_tau := G0_tau; ipt_Sigma_tau := Sigma_tau |}.

Definition ipt_n_loops : nat := 30.

(** [S.G0_iw << inverse( iOmega_n - t**2 * S.G_iw )], then [S.solve(U = U)] *)
Definition ipt_iteration (U : Qc) (s : IPTSolver) : IPTSolver :=
  let s := {| ipt_beta := ipt_beta s;
              ipt_G_iw := ipt_G_iw s;
              ipt_G0_iw := inverse (gf_sub iOmega_n (gf_scale (t ^ 2) (ipt_G_iw s)));
              ipt_Sigma_iw := ipt_Sigma_iw s;
              ipt_G0_tau := ipt_G0_tau s; ipt_Sigma_tau := ipt_Sigma_tau s |} in
  ipt_solve U s.

(** the first guess, [S.G_iw << SemiCircular(2*t)] *)
Definition ipt_start (s : IPTSolver) : IPTSolver :=
  {| ipt_beta := ipt_beta s;
     ipt_G_iw := SemiCircular (qc 2 1 * t);
     ipt_G0_iw := ipt_G0_iw s; ipt_Sigma_iw := ipt_Sigma_iw s;
     ipt_G0_tau := ipt_G0_tau s; ipt_Sigma_tau := ipt_Sigma_tau s |}.

(** the DMFT loop for one value of [U] *)
Definition ipt_U (U : Qc) (s : IPTSolver) : IPTSolver :=
  for_each (range 0 ipt_n_loops) (fun _ => ipt_iteration U) (ipt_start s).
End Ipt.

End DMFT.

(** ** A framework with one Matsubara point

    Green's functions sampled at the single point [i omega = 3i/2], for
    [t = 1]: there the semicircular function of half-bandwidth 2 is exactly
    [-i/2].  The impurity solver is that of the non-interacting limit,
    [G = G0] and [Sigma = 0]. *)
Module SingleFreq.
Import Cplx DMFT.

(** the first coupling and interaction of the two-band script *)
Definition coeff0 : Qc := qc 0 1.
Definition U1 : Qc := qc 1 1.

#[global] Instance framework : Framework C unit :=
  {| gf_zero := C0;
     gf_add := Cadd;
     gf_sub := Csub;
     gf_scale := Cscale;
     gf_shift := fun g x => Cadd g (mkC x 0);
     inverse := Cinv;
     iOmega_n := mkC 0 (qc 3 2);
     SemiCircular := fun D => mkC 0 (- D / qc 4 1);
     density := re;
     cthyb_init := fun _ _ => tt;
     cthyb_G := fun _ G0 _ _ name => default C0 (G0 !! name);
     cthyb_Sigma := fun _ _ _ _ _ => C0;
     cthyb_next := fun _ _ _ _ => tt |}.

End SingleFreq.

(** ** The operator notebook and the local Hamiltonians of the scripts *)

Module OperatorNotebook.
Import Operators.

Section WithCoeff.
Context {R : Type} {RC : Coeff R}.

(** [A - B], and [A -= B] *)
Definition op_sub (A B : Operator R) : Operator R :=
  op_add A (op_scale (ropp r1) B).

(** The Hamiltonian cell:
<<
    H = Operator()
    H += U * n('up',0) * n('down',0)
    H -= mu * (n('up',0) + n('down',0))
>> *)
Definition H (U mu : R) : Operator R :=
  let H := Operator_empty in
  let H := op_add H (op_mul (op_scale U (n "up" 0)) (n "down" 0)) in
  op_sub H (op_scale mu (op_add (n "up" 0) (n "down" 0))).

(** the total number of particles on the flavours [fops] *)
Definition N_total (fops : list flavour) : Operator R :=
  op_sum fops (fun f => n (fst f) (snd f)).

(** The local Hamiltonian of an impurity problem: the interaction given
    to the solver and the level [-mu] that enters [G0_iw] through
    [iOmega_n + mu]. *)
Definition H_loc (fops : list flavour) (h : Operator R) (mu : R) : Operator R :=
  op_sub h (op_scale mu (N_total fops)).

(** the particle-hole transformation: [c_dag] and [c] are exchanged *)
Definition ph_canonical (o : canonical) : canonical :=
  match o with
  | Cdag b i => Cann b i
  | Cann b i => Cdag b i
  end.

Definition ph_conj (A : Operator R) : Operator R :=
  map (fun t => (fst t, map ph_canonical (snd t))) A.

(** the transposed matrix *)
Definition transpose (M : list (list R)) : list (list R) :=
  map (fun j => map (fun row => nth j row r0) M) (seq 0 (length M)).

End WithCoeff.

(** the numbers of [c_dag] and of [c] in a monomial *)
Definition creations (m : monomial) : nat :=
  length (List.filter (fun o => match o with Cdag _ _ => true | Cann _ _ => false end) m).
Definition annihilations (m : monomial) : nat :=
  length (List.filter (fun o => match o with Cdag _ _ => false | Cann _ _ => true end) m).

(** a term with two [c_dag] and two [c] *)
Definition two_body (t : Qc * monomial) : Prop :=
  creations (snd t) = 2%nat /\ annihilations (snd t) = 2%nat.

(** the flavour on which a canonical operator acts *)
Definition flavour_of (o : canonical) : flavour :=
  match o with Cdag b i => (b, i) | Cann b i => (b, i) end.

(** [fops = [('up',0), ('down',0)]] *)
Definition fops : list flavour := [("up", 0%nat); ("down", 0%nat)].

(** the number of occupied flavours of [s] whose block name starts
    with [spin] *)
Definition spin_number (fl : list flavour) (spin : string) (s : fock) : nat :=
  length (List.filter (fun p : flavour * bool => String.prefix spin (fst (fst p)) && snd p)
            (combine fl s)).

End OperatorNotebook.

(** ** The array of a function on a product mesh *)

Module GridData.
Import Cplx.

(** [D[n][j] = v]: nothing happens outside the array *)
Definition set2 (D : list (list C)) (n j : nat) (v : C) : list (list C) :=
  alter (fun row => <[j := v]> row) n D.

(** [D[n][j]] *)
Definition get2 (D : list (list C)) (n j : nat) : option C :=
  D !! n ≫= (fun row => row !! j).

End GridData.

(** ** Filling a Green's function of (k, omega): the loop and the broadcast *)

Module MultivarFill.
Import Cplx Lindhard Multivar.

(** [k_mesh.size], the number of k-points *)
Definition bz_size (mk : brzone) : nat :=
  let '(L1, L2, L3) := bz_dims mk in Z.to_nat (L1 * L2 * L3).

(** [Gf(mesh = k_iw_mesh, target_shape = [])]: a function on the mesh,
    filled with zeros *)
Definition Gf_new (mesh : brzone * imfreq) : g_k_w :=
  {| kw_mesh := mesh;
     kw_data := replicate (bz_size (fst mesh)) (replicate (iw_size (snd mesh)) C0) |}.

(** [G[k, iw] = v] for the mesh points number [m] and [p] *)
Definition kw_set (G : g_k_w) (m p : nat) (v : C) : g_k_w :=
  {| kw_mesh := kw_mesh G;
     kw_data := alter (fun row => <[p := v]> row) m (kw_data G) |}.

Section Fill.
(** The framework gives the values of the mesh points, a vector for a
    k-point and a complex number for a Matsubara frequency; the
    dispersion [eps(k) = -2*t*(cos(k[0]) + cos(k[1]))] is not a rational
    function and is a parameter too. *)
Variable K : Type.
Variable k_value : brzone -> nat -> K.
Variable iw_value : imfreq -> nat -> C.
Variable eps : K -> Qc.

(** [1/(iw + mu - e)]; the frequencies of a fermionic mesh are not zero,
    and the division by zero, an error in Python, is not modelled *)
Definition G_value (iw : C) (mu e : Qc) : C :=
  Cinv (Csub (Cadd iw (mkC mu 0)) (mkC e 0)).

(** Loop initialization:
<<
    for k, iw in G.mesh:
        G[k, iw] = 1/(iw + mu - eps(k))
>> *)
Definition fill_loop (mu : Qc) (G : g_k_w) : g_k_w :=
  let '(mk, mw) := kw_mesh G in
  for_each (product (range 0 (bz_size mk)) (range 0 (iw_size mw))) (fun '(m, p) G =>
    kw_set G m p (G_value (iw_value mw p) mu (eps (k_value mk m)))) G.



End Fill.
End MultivarFill.

(** ** The cells around the bubble: archive, grid of the plots, path *)

Module LindhardCells.
Import Cplx Lindhard Multivar.

Section Archive.
Variable g_k_w : Type.
Variable bubble : g_k_w -> g_k_w.

(** The cell that computes the susceptibility:
<<
    with HDFArchive("tpsc.h5",'r') as R:
        G0 = R['G0']
    chi0_qw = bubble(G0)
    with HDFArchive("tpsc.h5") as R:
        R['chi0_qw'] = chi0_qw
>>
    [None] where Python raises: no file, or no key [G0] in it. *)
Definition tpsc_cell (fs : gmap string (gmap string g_k_w))
  : option (g_k_w * gmap string (gmap string g_k_w)) :=
  R ← fs !! "tpsc.h5";
  G0 ← R !! "G0";
  let chi0_qw := bubble G0 in
  Some (chi0_qw, <["tpsc.h5" := <["chi0_qw" := chi0_qw]> R]> fs).
End Archive.

Definition n_step : nat := 100.

(** [np.arange(0, 1, 1./n)]: the numbers [k/n] for [k < n], in exact
    arithmetic *)
Definition arange_unit (n : nat) : list Qc :=
  map (fun k => qc (Z.of_nat k) 1 / qc (Z.of_nat n) 1) (range 0 n).

(** [x * np.array(q)] and the sum of two arrays *)
Definition vscale (x : Qc) (q : momentum) : momentum :=
  let '(a, b, c) := q in (x * a, x * b, x * c).
Definition vadd (p q : momentum) : momentum :=
  let '(a, b, c) := p in let '(a', b', c') := q in (a + a', b + b', c + c').

(** generates a linear set of points between qi and qf:
<<
    def path(qi, qf):
        for x in np.arange(0, 1, 1./n_step):
            yield (1-x) * np.array(qi) + x * np.array(qf)
>> *)
Definition path (qi qf : momentum) : list momentum :=
  map (fun x => vadd (vscale (1 - x) qi) (vscale x qf)) (arange_unit n_step).

(** [itertools.chain(path(G, X), path(X, M), path(M, G))] *)
Definition chain_GXMG (G X M : momentum) : list momentum :=
  path G X ++ path X M ++ path M G.

(** [plt.xticks([0, n_step, 2*n_step, 3*n_step], ...)] *)
Definition xticks : list nat := [0; n_step; 2 * n_step; 3 * n_step]%nat.

(** [np.linspace(0, 2*pi, nq, endpoint=True)], in units of [2*pi], the
    reciprocal lattice vector *)
Definition linspace_unit (nq : nat) : list Qc :=
  map (fun j => qc (Z.of_nat j) 1 / qc (Z.of_nat nq - 1) 1) (range 0 nq).

(** The values of the colour plot:
<<
    nq = chi0_qw.mesh[0].dims[0] + 1
    lsp = np.linspace(0, 2*pi, nq, endpoint=True)
    qx, qy = np.meshgrid(lsp, lsp)
    chi = lambda qx, qy: chi0_qw((qx,qy,0), 0).real
    np.vectorize(chi)(qx,qy)
>> *)
Definition plot_values (chi0_qw : Multivar.g_k_w) : list (list (option Qc)) :=
  let nq := (Z.to_nat (fst (fst (bz_dims (fst (kw_mesh chi0_qw))))) + 1)%nat in
  let lsp := linspace_unit nq in
  map (fun qy => map (fun qx => re <$> evaluate chi0_qw (qx, qy, 0) 0) lsp) lsp.

End LindhardCells.

(** ** The analysis cells of the DMFT notebooks *)

Module DMFTAnalysis.
Import DMFT.

Section Cells.
Context {gf hidden : Type} `{Framework gf hidden}.

(** [HDFArchive(path, 'r')[key]]; [None] where Python raises, for a
    file or a key that does not exist *)
Definition archive_key (fs : gmap string (gmap string (gmap string gf)))
    (path key : string) : option (gmap string gf) :=
  fs !! path ≫= (fun A => A !! key).

(** [HDFArchive(path, 'r')[key][name]] *)
Definition archive_read (fs : gmap string (gmap string (gmap string gf)))
    (path key name : string) : option gf :=
  archive_key fs path key ≫= (fun B => B !! name).

(** two solvers with the same block names and the same state of the
    sampler *)
Definition same_solver_shape (s s' : Solver gf hidden) : Prop :=
  internal s = internal s'
  /\ dom (G_iw s) = dom (G_iw s') /\ dom (G0_iw s) = dom (G0_iw s')
  /\ dom (Sigma_iw s) = dom (Sigma_iw s').

End Cells.

(** The reads of the analysis cells of the single-orbital notebook: the
    Green's functions and self-energies of the last iteration for
    U = 2 and U = 6, the self-energy for [U in np.arange(1.0, 9.0)], and
    the Green's function for U = 4 that is continued with Pade. *)
Definition one_band_reads : list (string * string * string) :=
  [ ("data/one_band/half-U2.00.h5", "G-9", "up");
    ("data/one_band/half-U6.00.h5", "G-9", "down");
    ("data/one_band/half-U2.00.h5", "Sigma-9", "up");
    ("data/one_band/half-U6.00.h5", "Sigma-9", "up") ]
  ++ map (fun k => ("data/one_band/half-U" +:+ fmt_2f (qc (Z.of_nat k) 1) +:+ ".h5",
                    "Sigma-9", "up"))
         (range 1 9)
  ++ [ ("data/one_band/half-U4.00.h5", "G-9", "up") ].

(** the archive the analysis cells of the two-orbital notebook open,
    ["data/two_band/%s-U%.2f-J%.2f.h5" % (filling, U, J)] *)
Definition two_band_read_path (filling : filling_t) (U J : Qc) : string :=
  "data/two_band/" +:+ filling_name filling +:+ "-U" +:+ fmt_2f U
    +:+ "-J" +:+ fmt_2f J +:+ ".h5".

(** the keys the scripts write, ['G-%i' % i] and ['Sigma-%i' % i] for
    [i in range(n_loops)] *)
Definition script_keys : list string :=
  flat_map (fun i => ["G-" +:+ pretty i; "Sigma-" +:+ pretty i]) (range 0 n_loops).

(** the archives of the whole sweep of the two-band script *)
Definition two_band_paths (filling : filling_t) : list string :=
  map (fun cU : Qc * Qc => two_band_path filling (snd cU) (fst cU * snd cU))
      (product coeff_values U_values).

End DMFTAnalysis.

(** ** The cell of the single-orbital notebook and its directory *)

Module DMFTFiles.
Import DMFT.

(** [os.path.dirname(path)]: what stands before the last "/"; [None]
    for a file of the working directory *)
Fixpoint dirname (p : string) : option string :=
  match p with
  | EmptyString => None
  | String c rest =>
      match dirname rest with
      | Some d => Some (String c d)
      | None => if String.eqb (String c EmptyString) "/" then Some EmptyString else None
      end
  end.

(** [HDFArchive(path)] opens in append mode: a file that does not
    exist is created, and the open raises when the directory of the
    file does not exist.  [dirs] are the directories that exist. *)
Definition can_open (dirs : gset string) (path : string) : bool :=
  match dirname path with
  | None => true
  | Some d => bool_decide (d ∈ dirs)
  end.

Section Cells.
Context {gf hidden : Type} `{Framework gf hidden}.

(** How a script ends: it runs to its last line, or an exception stops
    it; the world is the one that it leaves. *)
Inductive outcome : Type :=
| Finished (w : World gf hidden)
| Raised (w : World gf hidden).

Definition world_of (r : outcome) : World gf hidden :=
  match r with Finished w => w | Raised w => w end.

Definition finished (r : outcome) : bool :=
  match r with Finished _ => true | Raised _ => false end.

(** the next statement runs when no exception has been raised *)
Definition and_then (r : outcome) (f : World gf hidden -> outcome) : outcome :=
  match r with Finished w => f w | Raised w => Raised w end.

(** the body of the loop up to [with HDFArchive(...) as A:] *)
Definition one_band_solved (U : Qc) (i : nat) (w : World gf hidden) : World gf hidden :=
  let w := print (PrintIteration (i + 1) n_loops) w in
  let w := with_solver (one_band_update U) w in
  with_solver (fun s => solve s (one_band_h_int U) one_band_params) w.

(** The body of [for i in range(n_loops)] in the cell of the
    single-orbital notebook, which does not create [data/one_band]:
    the two writes happen when the archive can be opened, and the
    script stops at the [with] otherwise. *)
Definition one_band_iteration_in (dirs : gset string) (U : Qc) (i : nat)
    (w : World gf hidden) : outcome :=
  if can_open dirs (one_band_path U) then Finished (one_band_iteration U i w)
  else Raised (one_band_solved U i w).

(** the body of [for U in np.arange(1.0, 13.0)] *)
Definition one_band_U_in (dirs : gset string) (U : Qc) (w : World gf hidden) : outcome :=
  for_each (range 0 n_loops) (fun i r => and_then r (one_band_iteration_in dirs U i))
    (Finished (one_band_start U w)).

(** the cell, run where the directories [dirs] exist and the archives
    hold [files0] *)
Definition one_band_cell (dirs : gset string)
    (files0 : gmap string (gmap string (gmap string gf))) : outcome :=
  for_each U_values (fun U r => and_then r (one_band_U_in dirs U))
    (Finished (one_band_init files0)).

End Cells.
End DMFTFiles.

(** * Properties *)

Module LoopFacts.

Lemma for_each_snoc {A St : Type} (l : list A) (a : A) (body : A -> St -> St) (s : St) :
  for_each (l ++ [a]) body s = body a (for_each l body s).
Proof. unfold for_each. rewrite fold_left_app. reflexivity. Qed.

Lemma for_each_const {A St : Type} (l : list A) (f : St -> St) (s : St) :
  for_each l (fun _ => f) s = Nat.iter (length l) f s.
Proof.
  induction l as [|a l IH] using rev_ind; [reflexivity|].
  rewrite for_each_snoc, IH, length_app, Nat.add_comm. reflexivity.
Qed.

Lemma range_0_S (i : nat) : range 0 (Datatypes.S i) = range 0 i ++ [i].
Proof. unfold range. rewrite !Nat.sub_0_r. rewrite seq_S. reflexivity. Qed.

End LoopFacts.

Module CplxFacts.
Import Cplx.

Lemma C_eq (a b : C) : re a = re b -> im a = im b -> a = b.
Proof. destruct a, b; simpl; intros -> ->; reflexivity. Qed.

Lemma Cmul_comm (a b : C) : Cmul a b = Cmul b a.
Proof. apply C_eq; simpl; ring. Qed.

Lemma Cmul_assoc (a b c : C) : Cmul a (Cmul b c) = Cmul (Cmul a b) c.
Proof. apply C_eq; simpl; ring. Qed.

Lemma Cscale_mul_l (x : Qc) (a b : C) :
  Cmul (Cscale x a) b = Cscale x (Cmul a b).
Proof. apply C_eq; simpl; ring. Qed.

Lemma Cadd_comm (a b : C) : Cadd a b = Cadd b a.
Proof. apply C_eq; simpl; ring. Qed.

Lemma Cadd_0_r (a : C) : Cadd a C0 = a.
Proof. apply C_eq; simpl; ring. Qed.

Lemma Cscale_1 (a : C) : Cscale 1 a = a.
Proof. apply C_eq; simpl; ring. Qed.

Lemma Cscale_0 (a : C) : Cscale 0 a = C0.
Proof. apply C_eq; simpl; ring. Qed.

End CplxFacts.

Module OperatorsFacts.
Import Operators.

Section Generic.
Variable R : Type.
Variables (z o : R) (add mul sub : R -> R -> R) (opp : R -> R).
Hypothesis Rth : ring_theory z o add mul sub opp (@eq R).
Add Ring Rring : Rth.

#[local] Instance RC : Coeff R :=
  {| r0 := z; r1 := o; radd := add; rmul := mul; rsub := sub; ropp := opp |}.

(** On the sixteen Fock states of the four flavours the script's
    [h_int] and the notebook's H_HK have the same matrix, over any
    commutative ring of coefficients. *)
Lemma h_int_matrix_generic (U J : R) :
  op_matrix two_band_fops (h_int 2 U J) = op_matrix two_band_fops (H_HK 2 U J).
Proof using Rth.
  vm_compute.
  list_entries; ring.
Qed.

(** Some entries of that matrix, the states written as the occupations
    of up-0, up-1, down-0, down-1: the energy of a doubly occupied
    orbital, of two electrons of opposite and of equal spin in the two
    orbitals, and the amplitudes of pair hopping and of spin flip. *)
Lemma h_int_entries_generic (U J : R) :
  let h := h_int 2 U J in
  let two := add o o in
  let three := add two o in
  matrix_element two_band_fops h [true; false; true; false] [true; false; true; false] = U
  /\ matrix_element two_band_fops h [true; false; false; true] [true; false; false; true]
     = sub U (mul two J)
  /\ matrix_element two_band_fops h [true; true; false; false] [true; true; false; false]
     = sub U (mul three J)
  /\ matrix_element two_band_fops h [false; true; false; true] [true; false; true; false] = J
  /\ matrix_element two_band_fops h [false; true; true; false] [true; false; false; true] = J.
Proof using Rth.
  vm_compute. repeat split; ring.
Qed.
End Generic.

(** The canonical anticommutation relations on the Fock space of the four
    flavours: [{c_f, c_dag_g}] is the identity for [f = g] and zero
    otherwise, [{c_f, c_g}] and [{c_dag_f, c_dag_g}] are zero. *)
Lemma car_on_fock_space :
  Forall (fun f : flavour => Forall (fun g : flavour =>
    op_matrix two_band_fops (anticommutator (c (fst f) (snd f)) (c_dag (fst g) (snd g)))
    = op_matrix two_band_fops (if bool_decide (f = g) then op_one else Operator_empty)
    /\ op_matrix two_band_fops (anticommutator (c (fst f) (snd f)) (c (fst g) (snd g)))
       = op_matrix two_band_fops Operator_empty
    /\ op_matrix two_band_fops (anticommutator (c_dag (fst f) (snd f)) (c_dag (fst g) (snd g)))
       = op_matrix two_band_fops Operator_empty) two_band_fops) two_band_fops.
Proof. by_evaluation. Qed.

(** C8.  For two orbitals the interaction [h_int] built by the script is
    the Hubbard-Kanamori Hamiltonian of the notebook: density-density
    terms with U within an orbital, U-2J between orbitals for opposite
    spins and U-3J for equal spins, and the spin-flip and pair-hopping
    terms with -J and +J.  The two operators have the same matrix on the
    Fock space of the four flavours. *)
Theorem h_int_is_hubbard_kanamori (U J : Qc) :
  op_matrix two_band_fops (h_int DMFT.n_orbitals U J)
  = op_matrix two_band_fops (H_HK DMFT.n_orbitals U J).
Proof. exact (h_int_matrix_generic Qc 0 1 Qcplus Qcmult Qcminus Qcopp Qcrt U J). Qed.

Lemma h_int_entries (U J : Qc) :
  let h := h_int DMFT.n_orbitals U J in
  matrix_element two_band_fops h [true; false; true; false] [true; false; true; false] = U
  /\ matrix_element two_band_fops h [true; false; false; true] [true; false; false; true]
     = U - (1 + 1) * J
  /\ matrix_element two_band_fops h [true; true; false; false] [true; true; false; false]
     = U - (1 + 1 + 1) * J
  /\ matrix_element two_band_fops h [false; true; false; true] [true; false; true; false] = J
  /\ matrix_element two_band_fops h [false; true; true; false] [true; false; false; true] = J.
Proof. exact (h_int_entries_generic Qc 0 1 Qcplus Qcmult Qcminus Qcopp Qcrt U J). Qed.

End OperatorsFacts.

(** ** The bubble *)

Module LindhardFacts.
Import Cplx CplxFacts Lindhard LoopFacts.

Lemma rt_get_set (g : g_r_t) (n j : nat) (v : C) (n' j' : nat) :
  rt_get (rt_set g n j v) n' j'
  = if decide (n' = n /\ j' = j) then (fun _ => v) <$> rt_get g n' j' else rt_get g n' j'.
Proof.
  unfold rt_get, rt_set. simpl.
  destruct (decide (n' = n)) as [->|Hn].
  - rewrite list_lookup_alter_eq. destruct (rt_data g !! n) as [row|]; simpl.
    + destruct (decide (j' = j)) as [->|Hj].
      * rewrite decide_True by auto.
        destruct (row !! j) as [x|] eqn:Hx.
        -- apply list_lookup_insert_eq. eapply lookup_lt_Some, Hx.
        -- simpl. apply lookup_ge_None. rewrite length_insert.
           apply lookup_ge_None, Hx.
      * rewrite decide_False by tauto. apply list_lookup_insert_ne. auto.
    + destruct (decide _); reflexivity.
  - rewrite decide_False by tauto. rewrite list_lookup_alter_ne by auto. reflexivity.
Qed.

Lemma rt_mesh_set g n j v : rt_mesh (rt_set g n j v) = rt_mesh g.
Proof. reflexivity. Qed.

(** the loop over the time points of one lattice point *)
Lemma rt_get_fill_row (f : nat -> C) (g : g_r_t) (n m n' j' : nat) :
  rt_get (for_each (range 0 m) (fun j g => rt_set g n j (f j)) g) n' j'
  = if decide (n' = n /\ (j' < m)%nat) then (fun _ => f j') <$> rt_get g n' j'
    else rt_get g n' j'.
Proof.
  induction m as [|m IH].
  - cbn [range for_each seq fold_left Nat.sub]. case_decide; [exfalso; lia | reflexivity].
  - rewrite range_0_S, for_each_snoc, rt_get_set, IH.
    destruct (rt_get g n' j'); repeat case_decide; simpl;
      destruct_and?; subst; try reflexivity; exfalso; intuition lia.
Qed.

Lemma rt_mesh_fill_row (f : nat -> C) (g : g_r_t) (n m : nat) :
  rt_mesh (for_each (range 0 m) (fun j g => rt_set g n j (f j)) g) = rt_mesh g.
Proof.
  induction m as [|m IH]; [reflexivity|].
  rewrite range_0_S, for_each_snoc. exact IH.
Qed.

(** the two nested loops *)
Lemma rt_get_fill (F : nat -> nat -> C) (g : g_r_t) (N m n' j' : nat) :
  rt_get (for_each (range 0 N) (fun n g =>
            for_each (range 0 m) (fun j g => rt_set g n j (F n j)) g) g) n' j'
  = if decide ((n' < N)%nat /\ (j' < m)%nat) then (fun _ => F n' j') <$> rt_get g n' j'
    else rt_get g n' j'.
Proof.
  induction N as [|N IH].
  - cbn [range for_each seq fold_left Nat.sub]. case_decide; [exfalso; lia | reflexivity].
  - rewrite range_0_S, for_each_snoc, rt_get_fill_row, IH.
    destruct (rt_get g n' j'); repeat case_decide; simpl;
      destruct_and?; subst; try reflexivity; exfalso; intuition lia.
Qed.

Lemma rt_mesh_fill (F : nat -> nat -> C) (g : g_r_t) (N m : nat) :
  rt_mesh (for_each (range 0 N) (fun n g =>
             for_each (range 0 m) (fun j g => rt_set g n j (F n j)) g) g) = rt_mesh g.
Proof.
  induction N as [|N IH]; [reflexivity|].
  rewrite range_0_S, for_each_snoc, rt_mesh_fill_row. exact IH.
Qed.

Lemma rt_get_new (mr : cyclat) (mt : imtime) (n j : nat) :
  (n < cyclat_size mr)%nat -> (j < it_size mt)%nat ->
  rt_get (g_r_t_new mr mt) n j = Some C0.
Proof.
  intros Hn Hj. unfold rt_get, g_r_t_new. simpl.
  rewrite lookup_replicate_2 by exact Hn. simpl.
  apply lookup_replicate_2, Hj.
Qed.

Section Bubble.
Variable g_k_w : Type.
Variable make_gf_from_fourier : g_k_w -> g_r_t.
Variable evaluate : g_r_t -> lattice_point -> Qc -> C.
Variable tau_value : imtime -> nat -> Qc.

Local Abbreviation chi0_of := (bubble_chi0 g_k_w make_gf_from_fourier evaluate tau_value).

(** what the two loops leave in [chi0], as the cell writes it *)
Lemma bubble_chi0_entry (G0 : g_k_w) (n j : nat) :
  let grt := make_gf_from_fourier G0 in
  let mr := fst (rt_mesh grt) in
  let mt := snd (rt_mesh grt) in
  (n < cyclat_size mr)%nat ->
  (j < it_size mt)%nat ->
  rt_get (chi0_of G0) n j
  = Some (bubble_value evaluate tau_value grt (it_beta mt) mr (bubble_mtb mt) n j).
Proof.
  cbv zeta. intros Hn Hj. unfold bubble_chi0.
  destruct (rt_mesh (make_gf_from_fourier G0)) as [mr mt] eqn:Hmesh.
  simpl in Hn, Hj |- *.
  rewrite (rt_get_fill (bubble_value evaluate tau_value (make_gf_from_fourier G0)
                          (it_beta mt) mr (bubble_mtb mt))).
  rewrite decide_True by (simpl; lia).
  rewrite rt_get_new by (simpl; lia). reflexivity.
Qed.

Lemma bubble_value_product (grt : g_r_t) (beta : Qc) (mr : cyclat) (mtb : imtime)
    (n j : nat) :
  bubble_value evaluate tau_value grt beta mr mtb n j
  = Cmul (Cscale (qc 2 1) (evaluate grt (cyclat_point mr n) (tau_value mtb j)))
         (evaluate grt (lat_neg (cyclat_point mr n)) (beta - tau_value mtb j)).
Proof.
  unfold bubble_value. rewrite !Cscale_mul_l. f_equal. apply Cmul_comm.
Qed.

(** C1.  For every lattice point r and every time tau of the bosonic
    mesh the bubble stores chi(r, tau) = 2 G(r, tau) G(-r, beta - tau),
    where G is the transformed Green's function, [-r] has the negated
    coordinates and both factors are evaluations of G. *)
Theorem bubble_pointwise_product (G0 : g_k_w) (n j : nat) :
  let grt := make_gf_from_fourier G0 in
  let mr := fst (rt_mesh grt) in
  let mt := snd (rt_mesh grt) in
  let r := cyclat_point mr n in
  let tau := tau_value (bubble_mtb mt) j in
  (n < cyclat_size mr)%nat ->
  (j < it_size mt)%nat ->
  rt_get (chi0_of G0) n j
  = Some (Cmul (Cscale (qc 2 1) (evaluate grt r tau))
               (evaluate grt (lat_neg r) (it_beta mt - tau))).
Proof.
  cbv zeta. intros Hn Hj.
  rewrite (bubble_chi0_entry G0 n j Hn Hj), bubble_value_product. reflexivity.
Qed.

(** C7.  The time mesh built for chi is bosonic, with the inverse
    temperature and the number of points of the time mesh of the
    transformed Green's function; it is the time mesh of chi. *)
Theorem bubble_mesh_is_bosonic (G0 : g_k_w) :
  let mt := snd (rt_mesh (make_gf_from_fourier G0)) in
  let mtb := snd (rt_mesh (chi0_of G0)) in
  mtb = bubble_mtb mt
  /\ it_statistic mtb = Boson
  /\ it_statistic mtb <> Fermion
  /\ it_beta mtb = it_beta mt
  /\ it_size mtb = it_size mt.
Proof.
  cbv zeta. unfold bubble_chi0.
  destruct (rt_mesh (make_gf_from_fourier G0)) as [mr mt] eqn:Hmesh.
  rewrite rt_mesh_fill. simpl. repeat split. discriminate.
Qed.
End Bubble.

(** *** The grid evaluation *)

Lemma qc_sub (a b : Z) : qc (a - b) 1 = qc a 1 - qc b 1.
Proof.
  apply Qc_is_canon. unfold qc. simpl.
  rewrite !Qred_correct. unfold Qeq, Qminus, Qplus, Qopp. simpl. lia.
Qed.

Lemma qc_neq_0 (a : Z) : a <> 0%Z -> qc a 1 <> 0.
Proof.
  intros Ha Heq. apply Ha.
  apply (f_equal this) in Heq. simpl in Heq.
  assert (Hq : (a # 1 == 0)%Q) by (rewrite <- (Qred_correct (a # 1)), Heq; reflexivity).
  unfold Qeq in Hq. simpl in Hq. lia.
Qed.

Lemma Qfloor_qc (a : Z) : Qfloor (this (qc a 1)) = a.
Proof.
  unfold qc. simpl. rewrite Qred_correct. apply (Qfloor_Z a).
Qed.

Lemma lerp_left (x y : C) : Cadd (Cscale (1 - 0) x) (Cscale 0 y) = x.
Proof. apply C_eq; simpl; ring. Qed.

Lemma lerp_right (x y : C) : Cadd (Cscale (1 - 1) x) (Cscale 1 y) = y.
Proof. apply C_eq; simpl; ring. Qed.

(** on a time point of the mesh the interpolation returns the stored value *)
Lemma interpolate_on_mesh (mt : imtime) (row : list C) (j : nat) :
  (2 <= it_size mt)%nat -> it_beta mt <> 0 -> (j < it_size mt)%nat ->
  interpolate mt row (tau_point mt j) = default C0 (row !! j).
Proof.
  intros HL Hb Hj. unfold interpolate, tau_point.
  set (last := (Z.of_nat (it_size mt) - 1)%Z).
  assert (Hlast : qc last 1 <> 0) by (apply qc_neq_0; unfold last; lia).
  replace (qc (Z.of_nat j) 1 * it_beta mt / qc last 1 * qc last 1 / it_beta mt)
    with (qc (Z.of_nat j) 1) by (field; auto).
  rewrite Qfloor_qc.
  destruct (Z.eqb_spec (Z.of_nat j) last) as [Heq|Hne].
  - rewrite lerp_right. unfold row_at. f_equal. f_equal. lia.
  - replace (qc (Z.of_nat j) 1 - qc (Z.of_nat j) 1) with 0 by ring.
    rewrite lerp_left. unfold row_at. rewrite Nat2Z.id. reflexivity.
Qed.

(** [beta - tau_j] is the time point number [n - 1 - j] *)
Lemma beta_minus_tau (mt : imtime) (j : nat) :
  (2 <= it_size mt)%nat -> (j < it_size mt)%nat ->
  it_beta mt - tau_point mt j = tau_point mt (it_size mt - 1 - j).
Proof.
  intros HL Hj. unfold tau_point.
  set (last := (Z.of_nat (it_size mt) - 1)%Z).
  assert (Hlast : qc last 1 <> 0) by (apply qc_neq_0; unfold last; lia).
  replace (Z.of_nat (it_size mt - 1 - j)) with (last - Z.of_nat j)%Z by (unfold last; lia).
  rewrite qc_sub. field. exact Hlast.
Qed.

(** the number of a mesh point is recovered from its coordinates *)
Lemma wrap_index_point (mr : cyclat) (n : nat) :
  let '(L1, L2, L3) := dims mr in
  (0 < L1)%Z -> (0 < L2)%Z -> (0 < L3)%Z -> (n < cyclat_size mr)%nat ->
  wrap_index mr (cyclat_point mr n) = n.
Proof.
  unfold wrap_index, cyclat_point, cyclat_size.
  destruct (dims mr) as [[L1 L2] L3]. intros H1 H2 H3 Hn.
  set (z := Z.of_nat n).
  assert (Hz : (0 <= z < L1 * L2 * L3)%Z) by (unfold z; lia).
  rewrite (Z.mod_small (z / (L2 * L3)) L1).
  2:{ split; [apply Z.div_pos; lia|]. apply Z.div_lt_upper_bound; lia. }
  rewrite (Z.mul_comm L2 L3), <- Z.div_div by lia.
  transitivity (Z.to_nat z); [|apply Nat2Z.id]. f_equal.
  rewrite !Z.mod_mod by lia.
  replace (z / L3 / L2 * L2 + (z / L3) mod L2)%Z with (z / L3)%Z
    by (pose proof (Z.div_mod (z / L3) L2 ltac:(lia)); lia).
  pose proof (Z.div_mod z L3 ltac:(lia)). lia.
Qed.

Lemma tau_point_mtb (mt : imtime) (j : nat) :
  tau_point (bubble_mtb mt) j = tau_point mt j.
Proof. reflexivity. Qed.

Lemma evaluate_rt_on_mesh (g : g_r_t) (r : lattice_point) (j : nat) :
  let mr := fst (rt_mesh g) in
  let mt := snd (rt_mesh g) in
  (2 <= it_size mt)%nat -> it_beta mt <> 0 -> (j < it_size mt)%nat ->
  evaluate_rt g r (tau_point mt j) = rt_value g (wrap_index mr r) j.
Proof.
  cbv zeta. unfold evaluate_rt, rt_value, rt_get.
  destruct (rt_mesh g) as [mr mt]. simpl. intros HL Hb Hj.
  rewrite interpolate_on_mesh by assumption.
  destruct (rt_data g !! wrap_index mr r); reflexivity.
Qed.

(** The bubble on the grid, value by value, where times are exact:
    chi(r, tau_j) is then twice the stored G at (r, tau_j) times the
    stored G at the wrapped point -r and the time number n - 1 - j.  The
    C++ cell subtracts doubles, and [beta - t] may fall beside a point
    of the mesh, where the second factor is interpolated. *)
Lemma bubble_on_grid (grt : g_r_t) (n j : nat) :
  let mr := fst (rt_mesh grt) in
  let mt := snd (rt_mesh grt) in
  (0 < fst (fst (dims mr)))%Z -> (0 < snd (fst (dims mr)))%Z -> (0 < snd (dims mr))%Z ->
  (2 <= it_size mt)%nat -> it_beta mt <> 0 ->
  (n < cyclat_size mr)%nat -> (j < it_size mt)%nat ->
  rt_get (chi0_on_grid grt) n j
  = Some (Cmul (Cscale (qc 2 1) (rt_value grt n j))
               (rt_value grt (wrap_index mr (lat_neg (cyclat_point mr n)))
                         (it_size mt - 1 - j))).
Proof.
  cbv zeta. intros H1 H2 H3 HL Hb Hn Hj. unfold chi0_on_grid.
  rewrite (bubble_chi0_entry g_r_t (fun g => g) evaluate_rt tau_point grt n j Hn Hj).
  rewrite bubble_value_product.
  rewrite tau_point_mtb, beta_minus_tau by assumption.
  rewrite !evaluate_rt_on_mesh by (assumption || lia).
  pose proof (wrap_index_point (fst (rt_mesh grt)) n) as Hw.
  destruct (dims (fst (rt_mesh grt))) as [[L1 L2] L3]. simpl in H1, H2, H3.
  rewrite Hw by assumption. reflexivity.
Qed.

(** the toy grid, computed: each entry is 2 G(r, tau) G(-r, beta - tau)
    with -1 = 2 and -2 = 1 on the ring of three points *)
Example toy_bubble :
  rt_data (chi0_on_grid toy_grt)
  = [ [mkC (qc 4 1) 0;         mkC (qc (-3) 2) (qc 2 1);  mkC (qc 4 1) 0];
      [mkC (qc (-4) 1) 0;      mkC (qc 3 2) 0;            mkC (qc (-2) 1) (qc (-2) 1)];
      [mkC (qc (-2) 1) (qc (-2) 1);  mkC (qc 3 2) 0;      mkC (qc (-4) 1) 0] ].
Proof. by_evaluation. Qed.

Lemma bubble_pointwise_product_witness :
  rt_get (chi0_on_grid toy_grt) 1 0
  = Some (Cmul (Cscale (qc 2 1)
                  (evaluate_rt toy_grt (cyclat_point toy_mr 1) (tau_point (bubble_mtb toy_mt) 0)))
               (evaluate_rt toy_grt (lat_neg (cyclat_point toy_mr 1))
                  (it_beta toy_mt - tau_point (bubble_mtb toy_mt) 0))).
Proof.
  apply (bubble_pointwise_product g_r_t (fun g => g) evaluate_rt tau_point toy_grt 1 0);
    vm_compute; lia.
Defined.

End LindhardFacts.

(** ** Evaluation and partial evaluation *)

Module MultivarFacts.
Import Cplx CplxFacts Lindhard LindhardFacts Multivar.

Lemma axis_cell_on_grid (L i : Z) :
  (0 < L)%Z -> axis_cell L (qc i 1 / qc L 1) = (i, 0).
Proof.
  intros HL. unfold axis_cell.
  assert (HL' : qc L 1 <> 0) by (apply qc_neq_0; lia).
  replace (qc i 1 / qc L 1 * qc L 1) with (qc i 1) by (field; exact HL').
  rewrite Qfloor_qc. f_equal. ring.
Qed.

Lemma this_Qcminus (x y : Qc) : (this (x - y) == this x - this y)%Q.
Proof.
  unfold Qcminus, Qcplus, Qcopp, Q2Qc. cbn [this].
  rewrite !Qred_correct. reflexivity.
Qed.

Lemma this_qc (i : Z) : (this (qc i 1) == inject_Z i)%Q.
Proof. unfold qc, Q2Qc. cbn [this]. rewrite Qred_correct. reflexivity. Qed.

(** the fractional offset lies in [0, 1): the cell is the one around [q] *)
Lemma axis_cell_offset (L : Z) (q : Qc) :
  0 <= snd (axis_cell L q) /\ snd (axis_cell L q) < 1.
Proof.
  unfold axis_cell. cbn [snd]. generalize (q * qc L 1). intros a.
  pose proof (Qfloor_le (this a)) as Hle.
  pose proof (Qlt_floor (this a)) as Hlt.
  rewrite inject_Z_plus in Hlt.
  unfold Qcle, Qclt. rewrite this_Qcminus, this_qc.
  change (this 0) with 0%Q. change (this 1) with 1%Q.
  change (inject_Z 1) with 1%Q in Hlt.
  split; lra.
Qed.

Lemma nested_is_multilinear (w1 w2 w3 : Qc) (v : bool -> bool -> bool -> C) :
  lerp w1 (lerp w2 (lerp w3 (v false false false) (v false false true))
                   (lerp w3 (v false true false) (v false true true)))
          (lerp w2 (lerp w3 (v true false false) (v true false true))
                   (lerp w3 (v true true false) (v true true true)))
  = multilinear w1 w2 w3 v.
Proof.
  unfold multilinear, lerp, corners, corner_weight. simpl.
  apply C_eq; simpl; ring.
Qed.

Lemma interp_k_on_grid (G : g_k_w) (i : lattice_point) (p : nat) :
  let mk := fst (kw_mesh G) in
  (0 < fst (fst (bz_dims mk)))%Z -> (0 < snd (fst (bz_dims mk)))%Z ->
  (0 < snd (bz_dims mk))%Z ->
  interp_k G (grid_momentum mk i) p = kw_get G (bz_index mk i) p.
Proof.
  cbv zeta. unfold interp_k, grid_momentum.
  destruct (bz_dims (fst (kw_mesh G))) as [[L1 L2] L3]. destruct i as [[i1 i2] i3].
  cbn [fst snd]. intros H1 H2 H3.
  rewrite !axis_cell_on_grid by assumption.
  cbv beta iota. unfold lerp. rewrite !lerp_left. reflexivity.
Qed.

Lemma interp_k_multilinear (G : g_k_w) (k : momentum) (p : nat) :
  let mk := fst (kw_mesh G) in
  let c1 := axis_cell (fst (fst (bz_dims mk))) (fst (fst k)) in
  let c2 := axis_cell (snd (fst (bz_dims mk))) (snd (fst k)) in
  let c3 := axis_cell (snd (bz_dims mk)) (snd k) in
  interp_k G k p
  = multilinear (snd c1) (snd c2) (snd c3)
      (fun a b c => kw_get G (bz_index mk (step (fst c1) a, step (fst c2) b, step (fst c3) c)) p).
Proof.
  cbv zeta. unfold interp_k.
  destruct (bz_dims (fst (kw_mesh G))) as [[L1 L2] L3]. destruct k as [[q1 q2] q3].
  cbn [fst snd].
  destruct (axis_cell L1 q1) as [i1 w1], (axis_cell L2 q2) as [i2 w2],
           (axis_cell L3 q3) as [i3 w3].
  cbn [fst snd].
  apply (nested_is_multilinear w1 w2 w3
           (fun a b c => kw_get G
              (bz_index (fst (kw_mesh G)) (step i1 a, step i2 b, step i3 c)) p)).
Qed.

(** C6.  A function on the (k, omega) grid evaluated at a momentum that
    is a grid point returns the stored value; the Matsubara index is
    looked up, no other frequency is read; at any momentum the value is
    the multilinear interpolation of the eight grid points around it, with
    offsets in [0, 1). *)
Theorem evaluation_on_and_off_grid (G : g_k_w) (i : lattice_point) (k : momentum)
    (n : Z) (p : nat) :
  let mk := fst (kw_mesh G) in
  let c1 := axis_cell (fst (fst (bz_dims mk))) (fst (fst k)) in
  let c2 := axis_cell (snd (fst (bz_dims mk))) (snd (fst k)) in
  let c3 := axis_cell (snd (bz_dims mk)) (snd k) in
  (0 < fst (fst (bz_dims mk)))%Z -> (0 < snd (fst (bz_dims mk)))%Z ->
  (0 < snd (bz_dims mk))%Z ->
  iw_position (snd (kw_mesh G)) n = Some p ->
  evaluate G (grid_momentum mk i) n = Some (kw_get G (bz_index mk i) p)
  /\ (forall G' : g_k_w,
        kw_mesh G' = kw_mesh G -> (forall m, kw_get G' m p = kw_get G m p) ->
        evaluate G' k n = evaluate G k n)
  /\ evaluate G k n
     = Some (multilinear (snd c1) (snd c2) (snd c3)
               (fun a b c =>
                  kw_get G (bz_index mk (step (fst c1) a, step (fst c2) b, step (fst c3) c)) p))
  /\ ((0 <= snd c1 /\ snd c1 < 1) /\ (0 <= snd c2 /\ snd c2 < 1)
      /\ (0 <= snd c3 /\ snd c3 < 1)).
Proof.
  cbv zeta. intros H1 H2 H3 Hp. unfold evaluate. rewrite Hp. simpl.
  split; [|split; [|split]].
  - f_equal. apply interp_k_on_grid; assumption.
  - intros G' Hmesh Hcol. rewrite Hmesh, Hp. simpl. f_equal.
    rewrite !interp_k_multilinear, Hmesh.
    unfold multilinear, corners. simpl. rewrite !Hcol. reflexivity.
  - f_equal. apply interp_k_multilinear.
  - repeat split; apply axis_cell_offset.
Qed.

(** The modelled partial evaluation [G(k0, all)] is a function on a
    mesh equal to the frequency mesh of [G] and holds at each frequency
    the value [G(k0, n)].  Whether the framework hands out the very mesh
    object of [G] or an equal copy is not a question of these values:
    the notebook itself compares with [==]. *)
Lemma partial_eval_keeps_frequency_mesh (G : g_k_w) (k0 : momentum) :
  w_mesh (partial_eval G k0) = snd (kw_mesh G)
  /\ length (w_data (partial_eval G k0)) = iw_size (snd (kw_mesh G))
  /\ (forall (n : Z) (p : nat),
        iw_position (snd (kw_mesh G)) n = Some p ->
        w_data (partial_eval G k0) !! p = evaluate G k0 n).
Proof.
  split; [reflexivity|]. split.
  - unfold partial_eval. simpl. rewrite length_map, length_seq. reflexivity.
  - intros n p Hp. unfold evaluate. rewrite Hp. simpl.
    assert (Hlt : (p < iw_size (snd (kw_mesh G)))%nat).
    { unfold iw_position in Hp.
      destruct ((0 <=? n - iw_first (snd (kw_mesh G)))%Z
                && (n - iw_first (snd (kw_mesh G)) <? Z.of_nat (iw_size (snd (kw_mesh G))))%Z)
        eqn:Hb; [|discriminate].
      apply andb_true_iff in Hb. destruct Hb as [Hb1 Hb2].
      apply Z.leb_le in Hb1. apply Z.ltb_lt in Hb2.
      injection Hp as <-. lia. }
    rewrite list_lookup_fmap, lookup_seq_lt by exact Hlt. reflexivity.
Qed.

Lemma evaluation_on_and_off_grid_witness :
  evaluate toy_kw (grid_momentum (fst (kw_mesh toy_kw)) (3, 1, 0)%Z) 0
  = Some (kw_get toy_kw (bz_index (fst (kw_mesh toy_kw)) (3, 1, 0)%Z) 1).
Proof.
  apply (evaluation_on_and_off_grid toy_kw (3, 1, 0)%Z (qc 1 4, qc 1 3, 0) 0 1);
    vm_compute; reflexivity.
Defined.

(** the notebook's check [G((pi,pi,0), n)], on the toy function: the
    stored value at the grid point (1, 1, 0) *)
Example toy_evaluate_on_grid :
  evaluate toy_kw (qc 1 2, qc 1 2, 0) 0 = Some (mkC (qc (-1) 1) (qc (-2) 1)).
Proof. by_evaluation. Qed.

(** halfway between two grid points the value is their mean *)
Example toy_evaluate_off_grid :
  evaluate toy_kw (qc 1 4, 0, 0) 0 = Some (mkC (qc 2 1) 0).
Proof. by_evaluation. Qed.

End MultivarFacts.

(** ** The DMFT loops *)

Module DMFTFacts.
Import Operators DMFT LoopFacts.

Section WithFramework.
Context {gf hidden : Type} `{Framework gf hidden}.

Implicit Types (s : Solver gf hidden) (w : World gf hidden).

(** *** Block structure *)

Lemma lookup_assign_all (g : gf) (B : gmap string gf) (name : string) :
  assign_all g B !! name = (fun _ => g) <$> (B !! name).
Proof. unfold assign_all. apply lookup_fmap. Qed.

Lemma assign_all_Some (g : gf) (B : gmap string gf) (name : string) :
  is_Some (B !! name) -> assign_all g B !! name = Some g.
Proof. intros [x Hx]. rewrite lookup_assign_all, Hx. reflexivity. Qed.

Lemma new_blocks_Some (gf_struct : list (string * nat)) (name : string) :
  name ∈ map fst gf_struct -> is_Some (new_blocks gf_struct !! name).
Proof.
  intros Hin. unfold new_blocks.
  apply elem_of_dom. rewrite dom_list_to_map_L.
  apply elem_of_list_to_set. rewrite map_map. simpl. exact Hin.
Qed.

Lemma has_struct_spec gs s :
  has_struct gs s <->
  forall name, name ∈ map fst gs ->
    is_Some (G_iw s !! name) /\ is_Some (G0_iw s !! name)
    /\ is_Some (Sigma_iw s !! name).
Proof. unfold has_struct. apply Forall_forall. Qed.

Lemma Solver_new_has_struct (b : Qc) (gf_struct : list (string * nat)) :
  has_struct gf_struct (Solver_new b gf_struct).
Proof.
  apply has_struct_spec. intros name Hin. simpl. auto using new_blocks_Some.
Qed.

Lemma solve_has_struct gs s h p :
  has_struct gs s -> has_struct gs (solve s h p).
Proof.
  rewrite !has_struct_spec. intros Hs name Hin. destruct (Hs name Hin) as ([g Hg] & H0 & [sg Hsg]).
  simpl. rewrite !map_lookup_imap, Hg, Hsg. simpl. eauto.
Qed.

Lemma one_band_update_has_struct gs U s :
  has_struct gs s -> has_struct gs (one_band_update U s).
Proof.
  rewrite !has_struct_spec. intros Hs name Hin. destruct (Hs name Hin) as (Hg & H0 & Hsg).
  simpl. rewrite assign_all_Some by assumption. eauto.
Qed.

Lemma two_band_update_has_struct gs mu i s :
  has_struct gs s -> has_struct gs (two_band_update mu i s).
Proof.
  unfold two_band_update. destruct (0 <? i)%nat; [|exact (fun Hs => Hs)].
  rewrite !has_struct_spec. intros Hs name Hin. destruct (Hs name Hin) as (Hg & H0 & Hsg).
  simpl. rewrite assign_all_Some by assumption. eauto.
Qed.

Lemma one_band_iteration_has_struct gs U i w :
  has_struct gs (S w) -> has_struct gs (S (one_band_iteration U i w)).
Proof.
  intros Hs. unfold one_band_iteration. simpl.
  apply solve_has_struct, one_band_update_has_struct, Hs.
Qed.

Lemma one_band_start_has_struct gs U w :
  has_struct gs (S w) -> has_struct gs (S (one_band_start U w)).
Proof.
  rewrite !has_struct_spec. intros Hs name Hin. destruct (Hs name Hin) as (Hg & H0 & Hsg).
  simpl. rewrite assign_all_Some by assumption. eauto.
Qed.

Lemma one_band_top_has_struct gs U i w :
  has_struct gs (S w) -> has_struct gs (S (one_band_top U i w)).
Proof.
  intros Hs. unfold one_band_top. induction i as [|i IH].
  - apply one_band_start_has_struct, Hs.
  - rewrite range_0_S, for_each_snoc. apply one_band_iteration_has_struct, IH.
Qed.

Lemma S_print_densities w : S (print_densities w) = S w.
Proof. reflexivity. Qed.

Lemma two_band_iteration_has_struct gs f mu U J i w :
  has_struct gs (S w) -> has_struct gs (S (two_band_iteration f mu U J i w)).
Proof.
  intros Hs. unfold two_band_iteration. simpl.
  apply solve_has_struct, two_band_update_has_struct, Hs.
Qed.

Lemma two_band_start_has_struct gs mu w :
  has_struct gs (S w) -> has_struct gs (S (two_band_start mu w)).
Proof.
  rewrite !has_struct_spec. intros Hs name Hin. destruct (Hs name Hin) as (Hg & H0 & Hsg).
  simpl. rewrite assign_all_Some by assumption. eauto.
Qed.

Lemma two_band_top_has_struct gs f coeff U i w :
  has_struct gs (S w) -> has_struct gs (S (two_band_top f coeff U i w)).
Proof.
  intros Hs. unfold two_band_top. induction i as [|i IH].
  - apply two_band_start_has_struct, Hs.
  - rewrite range_0_S, for_each_snoc. apply two_band_iteration_has_struct, IH.
Qed.

(** the initial guess of the two-band loop sits in every block of
    [G0_iw] at the top of iteration 0 *)
Lemma two_band_top_0_G0 f coeff U w :
  has_struct two_band_gf_struct (S w) ->
  all_blocks two_band_gf_struct (G0_iw (S (two_band_top f coeff U 0 w)))
    (bethe_G0 (two_band_mu f coeff U (coeff * U)) (SemiCircular (qc 2 1 * t))).
Proof.
  rewrite !has_struct_spec. intros Hs name Hin. destruct (Hs name Hin) as (_ & H0 & _).
  unfold two_band_top. simpl. apply assign_all_Some, H0.
Qed.

(** *** Output *)

Lemma iteration_lines_app (o1 o2 : list output) :
  iteration_lines (o1 ++ o2) = iteration_lines o1 ++ iteration_lines o2.
Proof. apply omap_app. Qed.

Lemma one_band_iteration_lines U i w :
  iteration_lines (stdout (one_band_iteration U i w))
  = iteration_lines (stdout w) ++ [((i + 1)%nat, n_loops)].
Proof. unfold one_band_iteration. simpl. apply iteration_lines_app. Qed.

Lemma two_band_iteration_lines f mu U J i w :
  iteration_lines (stdout (two_band_iteration f mu U J i w))
  = iteration_lines (stdout w) ++ [((i + 1)%nat, n_loops)].
Proof.
  unfold two_band_iteration, print_densities. simpl.
  rewrite <- !app_assoc. rewrite iteration_lines_app. reflexivity.
Qed.

Lemma one_band_top_lines U k w :
  iteration_lines (stdout (one_band_top U k w))
  = iteration_lines (stdout w) ++ map (fun i => ((i + 1)%nat, n_loops)) (seq 0 k).
Proof.
  unfold one_band_top. induction k as [|k IH].
  - simpl. rewrite iteration_lines_app. simpl. reflexivity.
  - rewrite range_0_S, for_each_snoc, one_band_iteration_lines, IH.
    rewrite seq_S, map_app, <- app_assoc. reflexivity.
Qed.

Lemma two_band_top_lines f coeff U k w :
  iteration_lines (stdout (two_band_top f coeff U k w))
  = iteration_lines (stdout w) ++ map (fun i => ((i + 1)%nat, n_loops)) (seq 0 k).
Proof.
  unfold two_band_top. induction k as [|k IH].
  - simpl. rewrite app_nil_r. reflexivity.
  - rewrite range_0_S, for_each_snoc, two_band_iteration_lines, IH.
    rewrite seq_S, map_app, <- app_assoc. reflexivity.
Qed.

(** *** The self-consistency step *)

Lemma one_band_top_S U k w :
  one_band_top U (Datatypes.S k) w = one_band_iteration U k (one_band_top U k w).
Proof. unfold one_band_top. rewrite range_0_S, for_each_snoc. reflexivity. Qed.

Lemma two_band_top_S f coeff U k w :
  two_band_top f coeff U (Datatypes.S k) w
  = two_band_iteration f (two_band_mu f coeff U (coeff * U)) U (coeff * U) k
      (two_band_top f coeff U k w).
Proof. unfold two_band_top. cbv zeta. rewrite range_0_S, for_each_snoc. reflexivity. Qed.

(** what the body of the one-band loop leaves in [S.G0_iw] and [S.G_iw] *)
Lemma one_band_iteration_G0 U i w :
  G0_iw (S (one_band_iteration U i w))
  = assign_all (bethe_G0 (U / qc 2 1) (one_band_g (S w))) (G0_iw (S w)).
Proof. reflexivity. Qed.

Lemma one_band_iteration_G U i w :
  G_iw (S (one_band_iteration U i w))
  = map_imap (fun name _ =>
                Some (cthyb_G (internal (S w)) (G0_iw (S (one_band_iteration U i w)))
                        (one_band_h_int U) one_band_params name))
      (G_iw (S w)).
Proof. reflexivity. Qed.

(** and the body of the two-band loop *)
Lemma two_band_iteration_G0 f mu U J i w :
  G0_iw (S (two_band_iteration f mu U J i w))
  = if (0 <? i)%nat then assign_all (bethe_G0 mu (two_band_g (S w))) (G0_iw (S w))
    else G0_iw (S w).
Proof. unfold two_band_iteration, two_band_update. destruct (0 <? i)%nat; reflexivity. Qed.

Lemma two_band_iteration_G f mu U J i w :
  G_iw (S (two_band_iteration f mu U J i w))
  = map_imap (fun name _ =>
                Some (cthyb_G (internal (S w)) (G0_iw (S (two_band_iteration f mu U J i w)))
                        (h_int n_orbitals U J) two_band_params name))
      (G_iw (S w)).
Proof. unfold two_band_iteration, two_band_update. destruct (0 <? i)%nat; reflexivity. Qed.

Lemma one_band_G0_set U i w :
  has_struct one_band_gf_struct (S w) -> one_band_G0_from_G U i w.
Proof.
  intros Hs name Hin.
  destruct (proj1 (has_struct_spec _ _) (one_band_top_has_struct _ U i w Hs) name Hin)
    as (_ & H0 & _).
  rewrite Nat.add_1_r, one_band_top_S, one_band_iteration_G0.
  apply assign_all_Some, H0.
Qed.

Lemma two_band_G0_set f coeff U i w :
  has_struct two_band_gf_struct (S w) -> two_band_G0_from_G f coeff U (i + 1) w.
Proof.
  intros Hs name Hin.
  destruct (proj1 (has_struct_spec _ _)
              (two_band_top_has_struct _ f coeff U (i + 1) w Hs) name Hin)
    as (_ & H0 & _).
  rewrite (Nat.add_1_r (i + 1)), two_band_top_S, two_band_iteration_G0.
  replace (0 <? i + 1)%nat with true by (symmetry; apply Nat.ltb_lt; lia).
  apply assign_all_Some, H0.
Qed.

(** the first iteration of the two-band loop leaves [S.G0_iw] as it
    finds it *)
Lemma two_band_first_G0 f coeff U w :
  G0_iw (S (two_band_top f coeff U 1 w)) = G0_iw (S (two_band_top f coeff U 0 w)).
Proof. rewrite two_band_top_S, two_band_iteration_G0. reflexivity. Qed.

Lemma one_band_solved_set U i w :
  has_struct one_band_gf_struct (S w) -> one_band_solved_for_G0 U i w.
Proof.
  intros Hs name Hin.
  destruct (proj1 (has_struct_spec _ _) (one_band_top_has_struct _ U i w Hs) name Hin)
    as ([g Hg] & _ & _).
  rewrite Nat.add_1_r, one_band_top_S, one_band_iteration_G.
  rewrite map_lookup_imap, Hg. reflexivity.
Qed.

Lemma two_band_solved_set f coeff U i w :
  has_struct two_band_gf_struct (S w) -> two_band_solved_for_G0 f coeff U i w.
Proof.
  intros Hs name Hin.
  destruct (proj1 (has_struct_spec _ _) (two_band_top_has_struct _ f coeff U i w Hs) name Hin)
    as ([g Hg] & _ & _).
  unfold two_band_solved_for_G0.
  rewrite Nat.add_1_r, two_band_top_S, two_band_iteration_G.
  rewrite map_lookup_imap, Hg. reflexivity.
Qed.

(** C3 (as amended).  The Weiss field follows the single Bethe-lattice
    equation [G0 = inverse(iOmega_n + mu - t**2 * g)], without any
    momentum sum.  Run the loop itself: when iteration [i] of the
    one-band loop ends, every block of [S.G0_iw] holds that function
    for [mu = U/2] and [g] the symmetrized [S.G_iw] of the start of the
    iteration; so it is in the two-band loop for every iteration after
    the first; the first iteration of the two-band loop does not update
    [S.G0_iw], which holds the first guess, the same equation for
    [SemiCircular(2*t)], when it ends.  In every iteration of both loops
    the impurity solver has run on the [S.G0_iw] so set. *)
Theorem bethe_self_consistency (f : filling_t) (coeff U : Qc) (i : nat) w1 w2 :
  has_struct one_band_gf_struct (S w1) ->
  has_struct two_band_gf_struct (S w2) ->
  one_band_G0_from_G U i w1
  /\ two_band_G0_from_G f coeff U (i + 1) w2
  /\ all_blocks two_band_gf_struct (G0_iw (S (two_band_top f coeff U 1 w2)))
       (inverse (gf_sub (gf_shift iOmega_n (two_band_mu f coeff U (coeff * U)))
                        (gf_scale (t ^ 2) (SemiCircular (qc 2 1 * t)))))
  /\ one_band_solved_for_G0 U i w1
  /\ two_band_solved_for_G0 f coeff U i w2.
Proof.
  intros H1 H2. split; [|split; [|split; [|split]]].
  - apply one_band_G0_set, H1.
  - apply two_band_G0_set, H2.
  - rewrite two_band_first_G0. apply two_band_top_0_G0, H2.
  - apply one_band_solved_set, H1.
  - apply two_band_solved_set, H2.
Qed.

(** C4.  The one-band loop symmetrizes at every iteration, the first
    included: when iteration [i] ends, every block of [S.G0_iw] is
    built from [0.5 * (G_up + G_down)] of the start of the iteration.
    The two-band loop does not at its first iteration, which leaves
    [S.G0_iw] as the first guess set before the loop, whatever
    [S.G_iw] holds; at every later iteration it averages the four
    spin-orbital blocks. *)
Theorem symmetrization_from_which_iteration (f : filling_t) (coeff U : Qc) (i : nat) w1 w2 :
  has_struct one_band_gf_struct (S w1) ->
  has_struct two_band_gf_struct (S w2) ->
  let G1 := G_iw (S (one_band_top U i w1)) in
  let G2 := G_iw (S (two_band_top f coeff U (i + 1) w2)) in
  let mu := two_band_mu f coeff U (coeff * U) in
  all_blocks one_band_gf_struct (G0_iw (S (one_band_top U (i + 1) w1)))
    (bethe_G0 (U / qc 2 1)
       (gf_scale (qc 1 2) (gf_add (block G1 "up") (block G1 "down"))))
  /\ (G0_iw (S (two_band_top f coeff U 1 w2)) = G0_iw (S (two_band_top f coeff U 0 w2))
      /\ all_blocks two_band_gf_struct (G0_iw (S (two_band_top f coeff U 1 w2)))
           (bethe_G0 mu (SemiCircular (qc 2 1 * t))))
  /\ all_blocks two_band_gf_struct (G0_iw (S (two_band_top f coeff U (i + 1 + 1) w2)))
       (bethe_G0 mu
          (gf_scale (qc 1 4)
             (gf_add (gf_add (gf_add (block G2 "up-0") (block G2 "up-1"))
                             (block G2 "down-0")) (block G2 "down-1")))).
Proof.
  intros H1 H2. cbv zeta. split; [|split; [split|]].
  - apply (one_band_G0_set U i w1 H1).
  - apply two_band_first_G0.
  - rewrite two_band_first_G0. apply two_band_top_0_G0, H2.
  - apply (two_band_G0_set f coeff U i w2 H2).
Qed.

(** C10.  When an iteration of the one-band loop ends, whichever it
    is, the blocks 'up' and 'down' of [S.G0_iw] hold the same function,
    [inverse(iOmega_n + U/2 - t**2 * g)] for the one symmetrized [g] of
    the start of the iteration; the solver has run on these two equal
    blocks. *)
Theorem one_band_G0_up_equals_down (U : Qc) (i : nat) w :
  has_struct one_band_gf_struct (S w) ->
  let s := S (one_band_top U (i + 1) w) in
  let g := one_band_g (S (one_band_top U i w)) in
  G0_iw s !! "up" = Some (inverse (gf_sub (gf_shift iOmega_n (U / qc 2 1)) (gf_scale (t ^ 2) g)))
  /\ G0_iw s !! "down" = G0_iw s !! "up"
  /\ one_band_solved_for_G0 U i w.
Proof.
  intros Hs. cbv zeta.
  pose proof (one_band_G0_set U i w Hs) as Hall.
  rewrite (Hall "up"), (Hall "down").
  - split; [reflexivity|]. split; [reflexivity|]. apply one_band_solved_set, Hs.
  - apply list_elem_of_In. simpl. auto.
  - apply list_elem_of_In. simpl. auto.
Qed.

(** *** The number of iterations *)

Section IptLoop.
Variable gtau : Type.
Variable Fourier_to_tau : gf -> gtau.
Variable Fourier_to_iw : gtau -> gf.
Variable tau_mul : gtau -> gtau -> gtau.
Variable tau_scale : Qc -> gtau -> gtau.

Lemma ipt_U_iterations (U : Qc) (s : IPTSolver gtau) :
  ipt_U gtau Fourier_to_tau Fourier_to_iw tau_mul tau_scale U s
  = Nat.iter 30 (ipt_iteration gtau Fourier_to_tau Fourier_to_iw tau_mul tau_scale U)
      (ipt_start gtau s).
Proof. unfold ipt_U. rewrite for_each_const. reflexivity. Qed.
End IptLoop.

Lemma one_band_U_top U w : one_band_U U w = one_band_top U n_loops w.
Proof. unfold one_band_U, one_band_top. reflexivity. Qed.

Lemma two_band_U_top f coeff U w :
  two_band_U f coeff U w = two_band_top f coeff U n_loops w.
Proof. unfold two_band_U, two_band_top. reflexivity. Qed.

(** C9.  Whatever the impurity solver returns, each DMFT loop runs its
    body exactly [n_loops] times: the loop of the one-band script and
    that of the two-band script print the lines
    "Iteration = 1 / 10" to "Iteration = 10 / 10" and nothing else of
    that kind, and the IPT loop is the 30-fold iterate of its body. *)
Theorem dmft_loops_run_n_loops :
  n_loops = 10%nat
  /\ (forall (U : Qc) w,
        iteration_lines (stdout (one_band_U U w))
        = iteration_lines (stdout w) ++ map (fun i => ((i + 1)%nat, 10%nat)) (seq 0 10))
  /\ (forall (f : filling_t) (coeff U : Qc) w,
        iteration_lines (stdout (two_band_U f coeff U w))
        = iteration_lines (stdout w) ++ map (fun i => ((i + 1)%nat, 10%nat)) (seq 0 10))
  /\ (forall (gtau : Type) (to_tau : gf -> gtau) (to_iw : gtau -> gf)
             (tau_mul : gtau -> gtau -> gtau) (tau_scale : Qc -> gtau -> gtau)
             (U : Qc) (s : IPTSolver gtau),
        ipt_U gtau to_tau to_iw tau_mul tau_scale U s
        = Nat.iter 30 (ipt_iteration gtau to_tau to_iw tau_mul tau_scale U)
            (ipt_start gtau s)).
Proof.
  split; [reflexivity|]. split; [|split].
  - intros U w. rewrite one_band_U_top, one_band_top_lines. reflexivity.
  - intros f coeff U w.
    rewrite two_band_U_top, two_band_top_lines. reflexivity.
  - intros gtau to_tau to_iw tau_mul tau_scale U s.
    exact (ipt_U_iterations gtau to_tau to_iw tau_mul tau_scale U s).
Qed.

(** *** The archives *)

Lemma key_G_Sigma (i j : nat) : "G-" +:+ pretty i <> "Sigma-" +:+ pretty j.
Proof. discriminate. Qed.

Lemma key_G_inj (i j : nat) : "G-" +:+ pretty i = "G-" +:+ pretty j -> i = j.
Proof.
  intros Heq. apply (inj (@pretty nat _)).
  injection Heq as Heq. exact Heq.
Qed.

(** the archive of [U] holds, under "G-i", the Green's function the
    solver returned in iteration [i] *)
Lemma one_band_archive_G U k i w :
  (i < k)%nat ->
  files (one_band_top U k w) !! one_band_path U ≫= (fun A => A !! ("G-" +:+ pretty i))
  = Some (G_iw (S (one_band_top U (i + 1) w))).
Proof.
  induction k as [|k IH]; [lia|]. intros Hi.
  rewrite one_band_top_S. unfold one_band_iteration at 1.
  cbn [files archive_write with_solver print S stdout].
  rewrite lookup_insert_eq. cbn [mbind option_bind].
  rewrite lookup_insert_ne by (intros Heq; symmetry in Heq; exact (key_G_Sigma _ _ Heq)).
  rewrite (lookup_insert_eq (files (one_band_top U k w))). cbn [from_option id].
  destruct (decide (i = k)) as [->|Hne].
  - rewrite lookup_insert_eq. rewrite Nat.add_1_r, one_band_top_S. reflexivity.
  - rewrite lookup_insert_ne by (intros Heq; apply key_G_inj in Heq; lia).
    specialize (IH ltac:(lia)).
    destruct (files (one_band_top U k w) !! one_band_path U) as [A|]; [exact IH|discriminate].
Qed.

(** after the loop for [U] the archive holds "G-9", which the analysis
    cells read *)
Lemma one_band_archive_last U w :
  files (one_band_U U w) !! one_band_path U ≫= (fun A => A !! "G-9")
  = Some (G_iw (S (one_band_U U w))).
Proof.
  rewrite one_band_U_top. change "G-9" with ("G-" +:+ pretty 9%nat).
  rewrite (one_band_archive_G U n_loops 9 w) by (unfold n_loops; lia).
  reflexivity.
Qed.

(** *** The whole scripts *)

Lemma one_band_U_lines U w :
  iteration_lines (stdout (one_band_U U w))
  = iteration_lines (stdout w) ++ map (fun i => ((i + 1)%nat, n_loops)) (seq 0 n_loops).
Proof. rewrite one_band_U_top. apply one_band_top_lines. Qed.

(** the one-band script runs twelve loops of ten iterations *)
Lemma one_band_script_lines files0 :
  iteration_lines (stdout (one_band files0))
  = flat_map (fun _ => map (fun i => ((i + 1)%nat, n_loops)) (seq 0 n_loops)) U_values.
Proof.
  unfold one_band. generalize U_values. intros Us.
  change (flat_map (fun _ : Qc => map (fun i => ((i + 1)%nat, n_loops)) (seq 0 n_loops)) Us)
    with (iteration_lines (stdout (one_band_init files0))
          ++ flat_map (fun _ : Qc => map (fun i => ((i + 1)%nat, n_loops)) (seq 0 n_loops)) Us).
  generalize (one_band_init files0). intros w.
  induction Us as [|U Us IH] using rev_ind.
  - simpl. rewrite app_nil_r. reflexivity.
  - rewrite for_each_snoc, one_band_U_lines, IH, flat_map_app. cbn [flat_map].
    rewrite app_nil_r, app_assoc. reflexivity.
Qed.

Lemma one_band_U_has_struct gs U w :
  has_struct gs (S w) -> has_struct gs (S (one_band_U U w)).
Proof. rewrite one_band_U_top. apply one_band_top_has_struct. Qed.

(** every loop of the one-band script starts from a solver with the
    blocks 'up' and 'down' *)
Lemma one_band_script_has_struct (Us : list Qc) files0 :
  has_struct one_band_gf_struct (S (for_each Us one_band_U (one_band_init files0))).
Proof.
  induction Us as [|U Us IH] using rev_ind.
  - apply Solver_new_has_struct.
  - rewrite for_each_snoc. apply one_band_U_has_struct, IH.
Qed.

Lemma two_band_U_has_struct gs f coeff U w :
  has_struct gs (S w) -> has_struct gs (S (two_band_U f coeff U w)).
Proof. rewrite two_band_U_top. apply two_band_top_has_struct. Qed.

Lemma two_band_U_lines f coeff U w :
  iteration_lines (stdout (two_band_U f coeff U w))
  = iteration_lines (stdout w) ++ map (fun i => ((i + 1)%nat, n_loops)) (seq 0 n_loops).
Proof. rewrite two_band_U_top. apply two_band_top_lines. Qed.

(** every loop of the two-band script starts from a solver with the four
    spin-orbital blocks *)
Lemma two_band_script_has_struct f (cs Us : list Qc) (coeff : Qc) files0 :
  has_struct two_band_gf_struct
    (S (for_each Us (two_band_U f coeff)
          (for_each cs (fun coeff w => for_each U_values (two_band_U f coeff) w)
             (two_band_init files0)))).
Proof.
  assert (Hinner : forall (c : Qc) Us w,
            has_struct two_band_gf_struct (S w) ->
            has_struct two_band_gf_struct (S (for_each Us (two_band_U f c) w))).
  { intros c Us' w Hw. induction Us' as [|U Us' IH] using rev_ind; [exact Hw|].
    rewrite for_each_snoc. apply two_band_U_has_struct, IH. }
  apply Hinner.
  induction cs as [|c cs IH] using rev_ind.
  - apply Solver_new_has_struct.
  - rewrite for_each_snoc. apply Hinner, IH.
Qed.

End WithFramework.
End DMFTFacts.

(** ** The scripts on the one-point framework *)

Module SingleFreqFacts.
Import Cplx Operators DMFT SingleFreq DMFTFacts.

Lemma two_band_first_iteration_G0 :
  G0_iw (S (two_band_top half coeff0 U1 1 (two_band_init ∅))) !! "up-0"
  = Some (mkC (qc 6 25) (qc (-8) 25)).
Proof. by_evaluation. Qed.

(** C3, as stated, fails at the first iteration of the two-band loop:
    the [S.G0_iw] that it leaves is not computed from [S.G_iw]. *)
Lemma two_band_first_iteration_not_from_G :
  ~ two_band_G0_from_G half coeff0 U1 0 (two_band_init ∅).
Proof.
  intros Hall.
  assert (Hin : "up-0" ∈ map fst two_band_gf_struct)
    by (apply list_elem_of_In; simpl; auto).
  specialize (Hall "up-0" Hin). revert Hall. by_evaluation.
Qed.

Lemma bethe_self_consistency_witness :
  one_band_G0_from_G (qc 4 1) 2 (one_band_init ∅)
  /\ two_band_G0_from_G half (qc 1 10) (qc 4 1) (2 + 1) (two_band_init ∅)
  /\ all_blocks two_band_gf_struct
       (G0_iw (S (two_band_top half (qc 1 10) (qc 4 1) 1 (two_band_init ∅))))
       (inverse (gf_sub (gf_shift iOmega_n (two_band_mu half (qc 1 10) (qc 4 1) (qc 1 10 * qc 4 1)))
                        (gf_scale (t ^ 2) (SemiCircular (qc 2 1 * t)))))
  /\ one_band_solved_for_G0 (qc 4 1) 2 (one_band_init ∅)
  /\ two_band_solved_for_G0 half (qc 1 10) (qc 4 1) 2 (two_band_init ∅).
Proof.
  apply (bethe_self_consistency half (qc 1 10) (qc 4 1) 2); by_evaluation.
Defined.

Lemma symmetrization_from_which_iteration_witness :
  all_blocks one_band_gf_struct
    (G0_iw (S (one_band_top (qc 4 1) (0 + 1) (one_band_init ∅))))
    (bethe_G0 (qc 4 1 / qc 2 1)
       (gf_scale (qc 1 2)
          (gf_add (block (G_iw (S (one_band_top (qc 4 1) 0 (one_band_init ∅)))) "up")
                  (block (G_iw (S (one_band_top (qc 4 1) 0 (one_band_init ∅)))) "down")))).
Proof.
  assert (H1 : has_struct one_band_gf_struct (S (one_band_init ∅))) by by_evaluation.
  assert (H2 : has_struct two_band_gf_struct (S (two_band_init ∅))) by by_evaluation.
  exact (proj1 (symmetrization_from_which_iteration half (qc 1 10) (qc 4 1) 0
                  (one_band_init ∅) (two_band_init ∅) H1 H2)).
Defined.

Lemma one_band_G0_up_equals_down_witness :
  G0_iw (S (one_band_top (qc 4 1) (3 + 1) (one_band_init ∅))) !! "down"
  = G0_iw (S (one_band_top (qc 4 1) (3 + 1) (one_band_init ∅))) !! "up".
Proof.
  assert (H1 : has_struct one_band_gf_struct (S (one_band_init ∅))) by by_evaluation.
  exact (proj1 (proj2 (one_band_G0_up_equals_down (qc 4 1) 3 (one_band_init ∅) H1))).
Defined.

End SingleFreqFacts.

(** ** Loops and invariants *)

Module LoopInvariants.

(** a loop whose body keeps a property of the state keeps it *)
Lemma for_each_keeps {A St : Type} (P : St -> Prop) (l : list A) (body : A -> St -> St)
    (st : St) :
  (forall a st', a ∈ l -> P st' -> P (body a st')) -> P st -> P (for_each l body st).
Proof.
  intros Hbody. revert st. unfold for_each.
  induction l as [|a l IH]; intros st Hst; [exact Hst|].
  simpl. apply IH.
  - intros a' st' Hin. apply Hbody. right. exact Hin.
  - apply Hbody; [left|exact Hst].
Qed.

Lemma for_each_cons {A St : Type} (a : A) (l : list A) (body : A -> St -> St) (st : St) :
  for_each (a :: l) body st = for_each l body (body a st).
Proof. reflexivity. Qed.

Lemma elem_of_range (a b i : nat) : i ∈ range a b -> (a <= i < b)%nat.
Proof. unfold range. rewrite list_elem_of_In, in_seq. lia. Qed.

End LoopInvariants.

(** ** The operators of the notebook and of the scripts *)

Module OperatorNotebookFacts.
Import Operators OperatorNotebook LoopInvariants.

Section Generic.
Variable R : Type.
Variables (z o : R) (add mul sub : R -> R -> R) (opp : R -> R).
Hypothesis Rth : ring_theory z o add mul sub opp (@eq R).
Add Ring Rring_notebook : Rth.

#[local] Instance RC_notebook : Coeff R :=
  {| r0 := z; r1 := o; radd := add; rmul := mul; rsub := sub; ropp := opp |}.

Lemma h_int_symmetric_generic (U J : R) :
  op_matrix two_band_fops (h_int 2 U J) = transpose (op_matrix two_band_fops (h_int 2 U J)).
Proof using Rth.
  vm_compute. list_entries; ring.
Qed.

Lemma h_int_conserves_generic (U J : R) :
  Forall (fun s' => Forall (fun s =>
    if (spin_number two_band_fops "up" s =? spin_number two_band_fops "up" s')%nat
       && (spin_number two_band_fops "down" s =? spin_number two_band_fops "down" s')%nat
    then True else matrix_element two_band_fops (h_int 2 U J) s' s = z)
    (fock_basis 4)) (fock_basis 4).
Proof using Rth.
  vm_compute. repeat constructor; ring.
Qed.

(** particle-hole symmetry, with U = u + u, J = j + j and mu = 3u - 5j *)
Lemma two_band_ph_generic (u j : R) :
  let U := add u u in
  let J := add j j in
  let three := add (add o o) o in
  let five := add (add three o) o in
  let mu := sub (mul three u) (mul five j) in
  op_matrix two_band_fops (ph_conj (H_loc two_band_fops (h_int 2 U J) mu))
  = op_matrix two_band_fops (H_loc two_band_fops (h_int 2 U J) mu).
Proof using Rth.
  vm_compute. list_entries; ring.
Qed.

Lemma one_band_ph_generic (u : R) :
  let U := add u u in
  let h := op_mul (op_scale U (n "up" 0)) (n "down" 0) in
  op_matrix fops (ph_conj (H_loc fops h u)) = op_matrix fops (H_loc fops h u).
Proof using Rth.
  vm_compute. list_entries; ring.
Qed.

Lemma h_int_J0_generic (u : R) :
  op_matrix two_band_fops (h_int 2 (add u u) z)
  = op_matrix two_band_fops
      (op_scale u (op_mul (N_total two_band_fops) (op_sub (N_total two_band_fops) op_one))).
Proof using Rth.
  vm_compute. list_entries; ring.
Qed.

Lemma H_matrix_generic (U mu : R) :
  op_matrix fops (H U mu)
  = [ [z; z; z; z];
      [z; opp mu; z; z];
      [z; z; opp mu; z];
      [z; z; z; sub U (add mu mu)] ].
Proof using Rth.
  vm_compute. list_entries; ring.
Qed.

End Generic.

Lemma qc_half : qc 1 2 = / (1 + 1).
Proof. by_evaluation. Qed.
Lemma qc_two : qc 2 1 = 1 + 1.
Proof. by_evaluation. Qed.
Lemma qc_three : qc 3 1 = 1 + 1 + 1.
Proof. by_evaluation. Qed.
Lemma two_neq_0 : 1 + 1 <> 0.
Proof. by_evaluation. Qed.

(** The two-orbital interaction is Hermitian: for all U and J its
    matrix on the Fock space equals its transpose (all entries are
    real). *)
Theorem h_int_is_hermitian (U J : Qc) :
  op_matrix two_band_fops (h_int DMFT.n_orbitals U J)
  = transpose (op_matrix two_band_fops (h_int DMFT.n_orbitals U J)).
Proof. exact (h_int_symmetric_generic Qc 0 1 Qcplus Qcmult Qcminus Qcopp Qcrt U J). Qed.

(** The interaction conserves the number of electrons of each spin:
    its matrix element between two occupation states vanishes when they
    differ in the number of spin-up or of spin-down electrons. *)
Theorem h_int_conserves_spin (U J : Qc) (s s' : fock) :
  s ∈ fock_basis 4 -> s' ∈ fock_basis 4 ->
  spin_number two_band_fops "up" s <> spin_number two_band_fops "up" s'
  \/ spin_number two_band_fops "down" s <> spin_number two_band_fops "down" s' ->
  matrix_element two_band_fops (h_int DMFT.n_orbitals U J) s' s = 0.
Proof.
  intros Hs Hs' Hne.
  pose proof (h_int_conserves_generic Qc 0 1 Qcplus Qcmult Qcminus Qcopp Qcrt U J) as Hall.
  rewrite Forall_forall in Hall. specialize (Hall s' Hs').
  rewrite Forall_forall in Hall. specialize (Hall s Hs).
  destruct (Nat.eqb_spec (spin_number two_band_fops "up" s) (spin_number two_band_fops "up" s'));
    destruct (Nat.eqb_spec (spin_number two_band_fops "down" s)
                (spin_number two_band_fops "down" s'));
    cbn [andb] in Hall; try exact Hall.
  exfalso. destruct Hne; auto.
Qed.

Lemma h_int_conserves_spin_witness :
  matrix_element two_band_fops (h_int DMFT.n_orbitals (qc 4 1) (qc 1 1))
    [true; true; false; false] [true; false; true; false] = 0.
Proof.
  apply (h_int_conserves_spin (qc 4 1) (qc 1 1)).
  - by_evaluation.
  - by_evaluation.
  - left. vm_compute. lia.
Defined.

(** The chemical potential that the two-band script takes for half
    filling, [0.5*U + 0.5*(U-2*J) + 0.5*(U-3*J)], is the particle-hole
    symmetric one: [h_int - mu * N] is unchanged when every [c_dag]
    and [c] are exchanged. *)
Theorem half_filling_is_particle_hole_symmetric (coeff U J : Qc) :
  let mu := DMFT.two_band_mu DMFT.half coeff U J in
  let H := H_loc two_band_fops (h_int DMFT.n_orbitals U J) mu in
  op_matrix two_band_fops (ph_conj H) = op_matrix two_band_fops H.
Proof.
  cbv zeta.
  pose proof (two_band_ph_generic Qc 0 1 Qcplus Qcmult Qcminus Qcopp Qcrt
                (U / (1 + 1)) (J / (1 + 1))) as G.
  cbv zeta in G.
  replace (U / (1 + 1) + U / (1 + 1)) with U in G by (field; exact two_neq_0).
  replace (J / (1 + 1) + J / (1 + 1)) with J in G by (field; exact two_neq_0).
  replace (DMFT.two_band_mu DMFT.half coeff U J)
    with ((1 + 1 + 1) * (U / (1 + 1)) - (1 + 1 + 1 + 1 + 1) * (J / (1 + 1))).
  - exact G.
  - unfold DMFT.two_band_mu. rewrite qc_half, qc_two, qc_three. field. exact two_neq_0.
Qed.

(** The same for the one-band script: with the level [U/2] that it
    puts in [G0_iw], [U n_up n_down - (U/2) (n_up + n_down)] is
    particle-hole symmetric. *)
Theorem one_band_is_particle_hole_symmetric (U : Qc) :
  let H := H_loc fops (DMFT.one_band_h_int U) (U / qc 2 1) in
  op_matrix fops (ph_conj H) = op_matrix fops H.
Proof.
  cbv zeta.
  pose proof (one_band_ph_generic Qc 0 1 Qcplus Qcmult Qcminus Qcopp Qcrt (U / qc 2 1)) as G.
  cbv zeta in G.
  replace (U / qc 2 1 + U / qc 2 1) with U in G
    by (rewrite qc_two; field; exact two_neq_0).
  exact G.
Qed.

(** Without Hund's coupling, J = 0 (the first value of the sweep),
    the interaction depends on the total number of electrons only: it
    is (U/2) N (N - 1). *)
Theorem h_int_without_hund_coupling (U : Qc) :
  let N := N_total two_band_fops in
  op_matrix two_band_fops (h_int DMFT.n_orbitals U 0)
  = op_matrix two_band_fops (op_scale (U / (1 + 1)) (op_mul N (op_sub N op_one))).
Proof.
  cbv zeta.
  pose proof (h_int_J0_generic Qc 0 1 Qcplus Qcmult Qcminus Qcopp Qcrt (U / (1 + 1))) as G.
  replace (U / (1 + 1) + U / (1 + 1)) with U in G by (field; exact two_neq_0).
  exact G.
Qed.

Lemma op_add_two_body (A B : Operator Qc) :
  Forall two_body A -> Forall two_body B -> Forall two_body (op_add A B).
Proof. intros HA HB. unfold op_add. apply Forall_app. auto. Qed.

Lemma nn_two_body (a : Qc) (b1 b2 : string) :
  Forall two_body (op_mul (op_scale a (n b1 0)) (n b2 0)).
Proof. repeat constructor. Qed.

Lemma cccc_two_body (a : Qc) (b1 b2 b3 b4 : string) :
  Forall two_body
    (op_mul (op_mul (op_mul (op_scale a (c_dag b1 0)) (c_dag b2 0)) (c b3 0)) (c b4 0)).
Proof. repeat constructor. Qed.

(** Whatever the number of orbitals, every term of [h_int] is a
    product of two [c_dag] and two [c]: the interaction conserves the
    number of electrons.  For the two orbitals of the script all of them
    act on flavours of the solver's [gf_struct]. *)
Theorem h_int_terms_are_two_body (n_orbitals : nat) (U J : Qc) :
  Forall two_body (h_int n_orbitals U J)
  /\ Forall (fun t : Qc * monomial => Forall (fun o => flavour_of o ∈ two_band_fops) (snd t))
       (h_int DMFT.n_orbitals U J).
Proof.
  split; [|by_evaluation].
  unfold h_int. cbv zeta.
  apply (for_each_keeps (Forall two_body)).
  { intros [o1 o2] h _ Hh. destruct (Nat.eqb o1 o2); [exact Hh|].
    apply op_add_two_body; [apply op_add_two_body; [exact Hh|]|]; apply cccc_two_body. }
  apply (for_each_keeps (Forall two_body)).
  { intros [o1 o2] h _ Hh. destruct (Nat.leb o1 o2); [exact Hh|].
    apply op_add_two_body; [apply op_add_two_body; [exact Hh|]|]; apply nn_two_body. }
  apply (for_each_keeps (Forall two_body)).
  { intros [o1 o2] h _ Hh. destruct (Nat.eqb o1 o2); [exact Hh|].
    apply op_add_two_body; [exact Hh|apply nn_two_body]. }
  apply (for_each_keeps (Forall two_body)).
  { intros o h _ Hh. apply op_add_two_body; [exact Hh|apply nn_two_body]. }
  constructor.
Qed.

(** The Hamiltonian of the operator notebook,
    [U n_up n_down - mu (n_up + n_down)], is diagonal in the occupation
    basis, with the energies 0 (empty), -mu (one electron, either spin)
    and U - 2 mu (both). *)
Theorem atomic_hamiltonian_is_diagonal (U mu : Qc) :
  op_matrix fops (H U mu)
  = [ [0; 0; 0; 0];
      [0; - mu; 0; 0];
      [0; 0; - mu; 0];
      [0; 0; 0; U - (mu + mu)] ].
Proof. exact (H_matrix_generic Qc 0 1 Qcplus Qcmult Qcminus Qcopp Qcrt U mu). Qed.

End OperatorNotebookFacts.

(** ** Loops that fill a grid *)

Module GridFacts.
Import Cplx Lindhard LoopFacts GridData.

Lemma for_each_product {A B St : Type} (l1 : list A) (l2 : list B)
    (body : A * B -> St -> St) (st : St) :
  for_each (product l1 l2) body st
  = for_each l1 (fun a st => for_each l2 (fun b st => body (a, b) st) st) st.
Proof.
  unfold for_each, product. revert st.
  induction l1 as [|a l1 IH]; intros st; [reflexivity|].
  simpl. rewrite fold_left_app, IH.
  replace (fold_left (fun st0 a0 => body a0 st0) (map (fun b => (a, b)) l2) st)
    with (fold_left (fun st0 b => body (a, b) st0) l2 st); [reflexivity|].
  clear IH. generalize st. induction l2 as [|b l2 IH2]; intros st'; [reflexivity|].
  simpl. apply IH2.
Qed.

Lemma shape_set2 D n j v : map length (set2 D n j v) = map length D.
Proof.
  unfold set2. revert n. induction D as [|row D IH]; intros [|n]; simpl; try reflexivity.
  - rewrite length_insert. reflexivity.
  - f_equal. apply IH.
Qed.

Lemma get2_set2 D n j v n' j' :
  get2 (set2 D n j v) n' j'
  = if decide (n' = n /\ j' = j) then (fun _ => v) <$> get2 D n' j' else get2 D n' j'.
Proof.
  exact (LindhardFacts.rt_get_set {| rt_mesh := ({| dims := (0, 0, 0)%Z |},
           {| it_beta := 0; it_statistic := Boson; it_size := 0 |}); rt_data := D |} n j v n' j').
Qed.

Lemma shape_fill (l : list (nat * nat)) (F : nat -> nat -> C) D :
  map length (for_each l (fun a D => set2 D (fst a) (snd a) (F (fst a) (snd a))) D)
  = map length D.
Proof.
  induction l as [|a l IH] using rev_ind; [reflexivity|].
  rewrite for_each_snoc, shape_set2. exact IH.
Qed.

Lemma get2_fill (l : list (nat * nat)) (F : nat -> nat -> C) D n' j' :
  get2 (for_each l (fun a D => set2 D (fst a) (snd a) (F (fst a) (snd a))) D) n' j'
  = if decide ((n', j') ∈ l) then (fun _ => F n' j') <$> get2 D n' j' else get2 D n' j'.
Proof.
  induction l as [|[n j] l IH] using rev_ind.
  - cbn. rewrite decide_False by apply not_elem_of_nil. reflexivity.
  - rewrite for_each_snoc, get2_set2, IH. cbn [fst snd].
    destruct (decide (n' = n /\ j' = j)) as [[-> ->]|Hne].
    + rewrite (decide_True (P := (n, j) ∈ l ++ [(n, j)])) by set_solver.
      destruct (decide ((n, j) ∈ l)), (get2 D n j); reflexivity.
    + destruct (decide ((n', j') ∈ l)) as [Hin|Hin].
      * rewrite decide_True by set_solver. reflexivity.
      * rewrite decide_False; [reflexivity|].
        rewrite elem_of_app, list_elem_of_singleton. intros [?|Heq]; [tauto|].
        injection Heq as -> ->. tauto.
Qed.

Lemma grid_ext (D D' : list (list C)) :
  map length D = map length D' ->
  (forall n j, get2 D n j = get2 D' n j) -> D = D'.
Proof.
  intros Hshape Hget. apply list_eq. intros n.
  pose proof (f_equal (fun l => l !! n) Hshape) as Hn. cbn beta in Hn.
  rewrite !list_lookup_fmap in Hn.
  destruct (D !! n) as [row|] eqn:Hrow, (D' !! n) as [row'|] eqn:Hrow';
    try discriminate; [|reflexivity].
  injection Hn as Hlen. f_equal. apply list_eq. intros j.
  specialize (Hget n j). unfold get2 in Hget. rewrite Hrow, Hrow' in Hget. exact Hget.
Qed.

Lemma elem_of_product_range (N m n j : nat) :
  (n, j) ∈ product (range 0 N) (range 0 m) <-> (n < N /\ j < m)%nat.
Proof.
  unfold product, range. rewrite list_elem_of_In, in_flat_map. split.
  - intros (a & Ha & Hin). apply in_map_iff in Hin. destruct Hin as (b & Heq & Hb).
    injection Heq as -> ->. apply in_seq in Ha, Hb. lia.
  - intros [Hn Hj]. exists n. split; [apply in_seq; lia|].
    apply in_map_iff. exists j. split; [reflexivity|apply in_seq; lia].
Qed.

Lemma lookup_replicate_ge {A : Type} (n i : nat) (x : A) :
  (n <= i)%nat -> replicate n x !! i = None.
Proof. apply lookup_replicate_None. Qed.

(** a loop over all the pairs of indices of a grid of zeros leaves the
    table of the values *)
Lemma fill_grid (F : nat -> nat -> C) (N m : nat) :
  for_each (product (range 0 N) (range 0 m))
    (fun a D => set2 D (fst a) (snd a) (F (fst a) (snd a)))
    (replicate N (replicate m C0))
  = map (fun n => map (fun j => F n j) (seq 0 m)) (seq 0 N).
Proof.
  apply grid_ext.
  - rewrite shape_fill. apply list_eq. intros n. rewrite !list_lookup_fmap.
    destruct (decide (n < N)%nat) as [Hn|Hn].
    + rewrite lookup_replicate_2, lookup_seq_lt by exact Hn. cbn.
      rewrite length_replicate, length_map, length_seq. reflexivity.
    + rewrite lookup_replicate_ge, lookup_seq_ge by lia. reflexivity.
  - intros n j. rewrite get2_fill. unfold get2.
    rewrite list_lookup_fmap.
    destruct (decide ((n, j) ∈ product (range 0 N) (range 0 m))) as [Hin|Hin];
      rewrite elem_of_product_range in Hin.
    + destruct Hin as [Hn Hj].
      rewrite lookup_replicate_2, lookup_seq_lt by exact Hn. cbn.
      rewrite lookup_replicate_2 by exact Hj.
      rewrite list_lookup_fmap, lookup_seq_lt by exact Hj. reflexivity.
    + destruct (decide (n < N)%nat) as [Hn|Hn].
      * rewrite lookup_replicate_2, lookup_seq_lt by exact Hn. cbn.
        rewrite list_lookup_fmap.
        rewrite lookup_replicate_ge, lookup_seq_ge by lia. reflexivity.
      * rewrite lookup_replicate_ge, lookup_seq_ge by lia. reflexivity.
Qed.

End GridFacts.

Module FillFacts.
Import Cplx Lindhard Multivar MultivarFill LoopFacts GridData GridFacts.


Section Fill.
Variable K : Type.
Variable k_value : brzone -> nat -> K.
Variable iw_value : imfreq -> nat -> C.
Variable eps : K -> Qc.

Lemma kw_fill_data (l : list (nat * nat)) (V : nat -> nat -> C) (G : g_k_w) :
  for_each l (fun '(m, p) G => kw_set G m p (V m p)) G
  = {| kw_mesh := kw_mesh G;
       kw_data := for_each l (fun a D => set2 D (fst a) (snd a) (V (fst a) (snd a)))
                    (kw_data G) |}.
Proof.
  induction l as [|[m p] l IH] using rev_ind.
  - destruct G. reflexivity.
  - rewrite !for_each_snoc, IH. reflexivity.
Qed.

Lemma fill_loop_data (mu : Qc) (mesh : brzone * imfreq) :
  fill_loop K k_value iw_value eps mu (Gf_new mesh)
  = {| kw_mesh := mesh;
       kw_data := map (fun m => map (fun p =>
                    G_value (iw_value (snd mesh) p) mu (eps (k_value (fst mesh) m)))
                    (seq 0 (iw_size (snd mesh)))) (seq 0 (bz_size (fst mesh))) |}.
Proof.
  destruct mesh as [mk mw]. unfold fill_loop, Gf_new. cbn [kw_mesh fst snd].
  rewrite (kw_fill_data _ (fun m p => G_value (iw_value mw p) mu (eps (k_value mk m)))).
  cbn [kw_mesh kw_data]. f_equal.
  apply (fill_grid (fun m p => G_value (iw_value mw p) mu (eps (k_value mk m)))).
Qed.



Lemma bz_index_lt (mk : brzone) (i : lattice_point) :
  (0 < fst (fst (bz_dims mk)))%Z -> (0 < snd (fst (bz_dims mk)))%Z ->
  (0 < snd (bz_dims mk))%Z ->
  (bz_index mk i < bz_size mk)%nat.
Proof.
  unfold bz_index, wrap_index, bz_size. cbn [dims].
  destruct (bz_dims mk) as [[L1 L2] L3], i as [[i1 i2] i3]. cbn [fst snd].
  intros H1 H2 H3.
  pose proof (Z.mod_pos_bound i1 L1 H1) as B1.
  pose proof (Z.mod_pos_bound i2 L2 H2) as B2.
  pose proof (Z.mod_pos_bound i3 L3 H3) as B3.
  set (a := (i1 mod L1)%Z) in *. set (b := (i2 mod L2)%Z) in *.
  set (c := (i3 mod L3)%Z) in *.
  assert (Hab : (0 <= a * L2 + b <= L1 * L2 - 1)%Z) by nia.
  assert (Hhi : ((a * L2 + b) * L3 <= (L1 * L2 - 1) * L3)%Z)
    by (apply Z.mul_le_mono_nonneg_r; lia).
  assert (Hlo : (0 <= (a * L2 + b) * L3)%Z) by (apply Z.mul_nonneg_nonneg; lia).
  replace ((L1 * L2 - 1) * L3)%Z with (L1 * L2 * L3 - L3)%Z in Hhi by ring.
  apply Z2Nat.inj_lt; lia.
Qed.

Lemma iw_position_lt (mw : imfreq) (n : Z) (p : nat) :
  iw_position mw n = Some p -> (p < iw_size mw)%nat.
Proof.
  unfold iw_position. intros Hp.
  destruct ((0 <=? n - iw_first mw)%Z && (n - iw_first mw <? Z.of_nat (iw_size mw))%Z)
    eqn:Hb; [|discriminate].
  apply andb_true_iff in Hb. destruct Hb as [Hb1 Hb2].
  apply Z.leb_le in Hb1. apply Z.ltb_lt in Hb2. injection Hp as <-. lia.
Qed.

(** The check of the notebook, [G((pi,pi,0), 2)] against
    [1/(iw_2 + mu - eps)]: evaluated at the momentum of a grid point
    and at a Matsubara index of the mesh, the Green's function that
    the loop filled returns [1/(iw + mu - eps(k))] for the values of
    that grid point and that frequency. *)
Theorem filled_G_evaluates_to_formula (mu : Qc) (mesh : brzone * imfreq)
    (i : lattice_point) (n : Z) (p : nat) :
  let mk := fst mesh in
  (0 < fst (fst (bz_dims mk)))%Z -> (0 < snd (fst (bz_dims mk)))%Z ->
  (0 < snd (bz_dims mk))%Z ->
  iw_position (snd mesh) n = Some p ->
  evaluate (fill_loop K k_value iw_value eps mu (Gf_new mesh)) (grid_momentum mk i) n
  = Some (G_value (iw_value (snd mesh) p) mu (eps (k_value mk (bz_index mk i)))).
Proof.
  cbv zeta. intros H1 H2 H3 Hp.
  pose proof (bz_index_lt (fst mesh) i H1 H2 H3) as Hm.
  pose proof (iw_position_lt _ _ _ Hp) as Hlt.
  rewrite fill_loop_data.
  match goal with |- context [evaluate ?g _ _] => set (G := g) end.
  change (grid_momentum (fst mesh) i) with (grid_momentum (fst (kw_mesh G)) i).
  unfold evaluate. change (snd (kw_mesh G)) with (snd mesh). rewrite Hp.
  cbn [mbind option_bind]. f_equal.
  rewrite (MultivarFacts.interp_k_on_grid G i p) by exact H1 || exact H2 || exact H3.
  unfold kw_get, G. cbn [kw_mesh kw_data fst].
  rewrite list_lookup_fmap, lookup_seq_lt by exact Hm. cbn [fmap option_fmap option_map mbind option_bind].
  rewrite list_lookup_fmap, lookup_seq_lt by exact Hlt. reflexivity.
Qed.

End Fill.

Section Bubble.
Variable g_k_w : Type.
Variable make_gf_from_fourier : g_k_w -> g_r_t.
Variable evaluate : g_r_t -> lattice_point -> Qc -> C.
Variable tau_value : imtime -> nat -> Qc.

Lemma rt_fill_data (l : list (nat * nat)) (V : nat -> nat -> C) (g : g_r_t) :
  for_each l (fun a g => rt_set g (fst a) (snd a) (V (fst a) (snd a))) g
  = {| rt_mesh := rt_mesh g;
       rt_data := for_each l (fun a D => set2 D (fst a) (snd a) (V (fst a) (snd a)))
                    (rt_data g) |}.
Proof.
  induction l as [|[m p] l IH] using rev_ind.
  - destruct g. reflexivity.
  - rewrite !for_each_snoc, IH. reflexivity.
Qed.

(** The two loops of [bubble] fill the whole of [chi0]: it is the
    function on the mesh (mr, mtb) whose array has one row for each
    lattice point and in it one entry for each time point, the product
    [2*grt(-r, beta - t) * grt(r, t)]; no entry keeps the zero of the
    allocation. *)
Theorem bubble_fills_chi0 (G0 : g_k_w) :
  let grt := make_gf_from_fourier G0 in
  let mr := fst (rt_mesh grt) in
  let mt := snd (rt_mesh grt) in
  bubble_chi0 g_k_w make_gf_from_fourier evaluate tau_value G0
  = {| rt_mesh := (mr, bubble_mtb mt);
       rt_data := map (fun n => map (fun j =>
                    bubble_value evaluate tau_value grt (it_beta mt) mr (bubble_mtb mt) n j)
                    (seq 0 (it_size mt))) (seq 0 (cyclat_size mr)) |}.
Proof.
  cbv zeta. unfold bubble_chi0.
  destruct (rt_mesh (make_gf_from_fourier G0)) as [mr mt]. cbn [fst snd].
  rewrite <- (for_each_product (range 0 (cyclat_size mr)) (range 0 (it_size (bubble_mtb mt)))
                (fun a chi0 => rt_set chi0 (fst a) (snd a)
                   (bubble_value evaluate tau_value (make_gf_from_fourier G0)
                      (it_beta mt) mr (bubble_mtb mt) (fst a) (snd a)))).
  rewrite (rt_fill_data _ (bubble_value evaluate tau_value (make_gf_from_fourier G0)
                             (it_beta mt) mr (bubble_mtb mt))).
  unfold g_r_t_new. cbn [rt_mesh rt_data it_size bubble_mtb]. f_equal.
  apply (fill_grid (bubble_value evaluate tau_value (make_gf_from_fourier G0)
                      (it_beta mt) mr (bubble_mtb mt))).
Qed.

End Bubble.
Lemma filled_G_evaluates_to_formula_witness :
  evaluate (fill_loop nat (fun _ m => m) (fun _ p => mkC 0 (qc (2 * Z.of_nat p - 1) 1))
              (fun k => qc (Z.of_nat k) 1) 0
              (Gf_new (fst (kw_mesh toy_kw), snd (kw_mesh toy_kw))))
    (grid_momentum (fst (kw_mesh toy_kw)) (1, 1, 0)%Z) 0
  = Some (G_value (mkC 0 (qc 1 1)) 0 (qc 3 1)).
Proof.
  apply (filled_G_evaluates_to_formula nat (fun _ m => m)
           (fun _ p => mkC 0 (qc (2 * Z.of_nat p - 1) 1)) (fun k => qc (Z.of_nat k) 1) 0
           (fst (kw_mesh toy_kw), snd (kw_mesh toy_kw)) (1, 1, 0)%Z 0 1);
    vm_compute; reflexivity.
Defined.

End FillFacts.

(** ** The cells around the bubble *)

Module LindhardCellsFacts.
Import Cplx CplxFacts Lindhard LindhardFacts Multivar MultivarFacts LindhardCells.

Section Archive.
Variable g_k_w : Type.
Variable bubble : g_k_w -> g_k_w.

(** When the cell runs through, the archive holds the susceptibility
    of the stored [G0] under [chi0_qw] and still holds [G0]; no other
    file is touched; and running the cell again changes nothing. *)
Theorem tpsc_cell_saves_and_is_idempotent
    (fs fs' : gmap string (gmap string g_k_w)) (chi : g_k_w) :
  tpsc_cell g_k_w bubble fs = Some (chi, fs') ->
  (exists G0, fs !! "tpsc.h5" ≫= (fun R => R !! "G0") = Some G0
              /\ chi = bubble G0
              /\ fs' !! "tpsc.h5" ≫= (fun R => R !! "G0") = Some G0)
  /\ fs' !! "tpsc.h5" ≫= (fun R => R !! "chi0_qw") = Some chi
  /\ (forall p, p <> "tpsc.h5" -> fs' !! p = fs !! p)
  /\ tpsc_cell g_k_w bubble fs' = Some (chi, fs').
Proof.
  unfold tpsc_cell. intros Hrun.
  destruct (fs !! "tpsc.h5") as [R|] eqn:HR; [|discriminate]. cbn in Hrun.
  destruct (R !! "G0") as [G0|] eqn:HG0; [|discriminate]. cbn in Hrun.
  injection Hrun as <- <-.
  split; [|split; [|split]].
  - exists G0. cbn. rewrite HG0. split; [reflexivity|]. split; [reflexivity|].
    rewrite lookup_insert_eq. cbn. rewrite lookup_insert_ne by discriminate. exact HG0.
  - rewrite lookup_insert_eq. cbn. apply lookup_insert_eq.
  - intros p Hp. apply lookup_insert_ne. auto.
  - rewrite lookup_insert_eq. cbn. rewrite lookup_insert_ne by discriminate.
    rewrite HG0. cbn. rewrite !insert_insert_eq. reflexivity.
Qed.

(** the cell fails exactly when the archive has no [G0] *)
Lemma tpsc_cell_fails (fs : gmap string (gmap string g_k_w)) :
  tpsc_cell g_k_w bubble fs = None <-> fs !! "tpsc.h5" ≫= (fun R => R !! "G0") = None.
Proof.
  unfold tpsc_cell. destruct (fs !! "tpsc.h5") as [R|]; cbn; [|tauto].
  destruct (R !! "G0"); cbn; split; intros; (discriminate || reflexivity).
Qed.
End Archive.

(** *** The path through the Brillouin zone *)

Lemma qc_inj (a b : Z) : qc a 1 = qc b 1 -> a = b.
Proof.
  intros Heq. destruct (decide (a - b = 0)%Z) as [|Hne]; [lia|].
  exfalso. apply (qc_neq_0 (a - b) Hne). rewrite qc_sub, Heq. ring.
Qed.

Lemma arange_unit_lookup (n k : nat) :
  (k < n)%nat -> arange_unit n !! k = Some (qc (Z.of_nat k) 1 / qc (Z.of_nat n) 1).
Proof.
  intros Hk. unfold arange_unit, range.
  rewrite list_lookup_fmap, lookup_seq_lt by lia. reflexivity.
Qed.

Lemma path_lookup (qi qf : momentum) (k : nat) :
  (k < n_step)%nat ->
  path qi qf !! k
  = Some (vadd (vscale (1 - qc (Z.of_nat k) 1 / qc (Z.of_nat n_step) 1) qi)
               (vscale (qc (Z.of_nat k) 1 / qc (Z.of_nat n_step) 1) qf)).
Proof.
  intros Hk. unfold path. rewrite list_lookup_fmap, arange_unit_lookup by exact Hk.
  reflexivity.
Qed.

Lemma length_path (qi qf : momentum) : length (path qi qf) = n_step.
Proof.
  unfold path, arange_unit, range. rewrite !length_map, length_seq. lia.
Qed.

Lemma qc_0 : qc 0 1 = 0.
Proof. by_evaluation. Qed.

Lemma path_first (qi qf : momentum) : path qi qf !! 0%nat = Some qi.
Proof.
  rewrite path_lookup by (unfold n_step; lia). f_equal.
  destruct qi as [[a b] c], qf as [[a' b'] c']. cbn [vadd vscale].
  change (Z.of_nat 0) with 0%Z. rewrite qc_0. unfold Qcdiv. f_equal; [f_equal|]; ring.
Qed.

Lemma path_misses_end (qi qf : momentum) : qi <> qf -> qf ∉ path qi qf.
Proof.
  intros Hne Hin. apply Hne.
  apply list_elem_of_lookup in Hin. destruct Hin as [k Hk].
  assert (Hlt : (k < n_step)%nat).
  { rewrite <- (length_path qi qf). eapply lookup_lt_Some, Hk. }
  rewrite path_lookup in Hk by exact Hlt.
  assert (Hn : qc (Z.of_nat n_step) 1 <> 0) by (apply qc_neq_0; unfold n_step; lia).
  set (x := qc (Z.of_nat k) 1 / qc (Z.of_nat n_step) 1) in *.
  assert (Hx : 1 - x <> 0).
  { intros H0. assert (Hk' : qc (Z.of_nat k) 1 = qc (Z.of_nat n_step) 1).
    { transitivity (x * qc (Z.of_nat n_step) 1); [unfold x; field; exact Hn|].
      assert (Hx1 : x = 1) by (transitivity (1 - (1 - x)); [ring|rewrite H0; ring]).
      rewrite Hx1. ring. }
    apply qc_inj in Hk'. lia. }
  assert (Hcomp : forall a b : Qc, (1 - x) * a + x * b = b -> a = b).
  { intros a b Hab.
    assert (H0 : (1 - x) * (a - b) = 0).
    { replace ((1 - x) * (a - b)) with (((1 - x) * a + x * b) - b) by ring.
      rewrite Hab. ring. }
    apply Qcmult_integral in H0. destruct H0 as [H0|H0]; [contradiction|].
    transitivity (b + (a - b)); [ring|rewrite H0; ring]. }
  destruct qi as [[a b] c], qf as [[a' b'] c']. cbn [vadd vscale] in Hk.
  injection Hk as H1 H2 H3.
  rewrite (Hcomp _ _ H1), (Hcomp _ _ H2), (Hcomp _ _ H3). reflexivity.
Qed.

(** The generator [path(qi, qf)] yields [n_step] points; the first one
    is [qi]; the point number [k] is [qi + (k/n_step) (qf - qi)]; the
    end point [qf] is not among them, unless the path is a single
    point. *)
Theorem path_is_half_open (qi qf : momentum) :
  length (path qi qf) = n_step
  /\ path qi qf !! 0%nat = Some qi
  /\ (forall k, (k < n_step)%nat ->
        path qi qf !! k
        = Some (vadd qi (vscale (qc (Z.of_nat k) 1 / qc (Z.of_nat n_step) 1)
                           (vadd qf (vscale (-(1)) qi)))))
  /\ (qi <> qf -> qf ∉ path qi qf).
Proof.
  split; [apply length_path|]. split; [apply path_first|]. split; [|apply path_misses_end].
  intros k Hk. rewrite path_lookup by exact Hk. f_equal.
  destruct qi as [[a b] c], qf as [[a' b'] c']. cbn [vadd vscale].
  f_equal; [f_equal|]; ring.
Qed.

(** The curve of the last plot has [3 * n_step] points.  The ticks at
    0, [n_step] and [2 * n_step] are on the points Gamma, X and M; the
    tick at [3 * n_step], labelled Gamma, is one past the last point. *)
Theorem ticks_on_the_path (G X M : momentum) :
  length (chain_GXMG G X M) = (3 * n_step)%nat
  /\ map (fun i => chain_GXMG G X M !! i) xticks = [Some G; Some X; Some M; None].
Proof.
  unfold chain_GXMG, xticks. split.
  - rewrite !length_app, !length_path. lia.
  - assert (H0 : (path G X ++ path X M ++ path M G) !! 0%nat = Some G).
    { rewrite lookup_app_l by (rewrite length_path; unfold n_step; lia). apply path_first. }
    assert (H1 : (path G X ++ path X M ++ path M G) !! n_step = Some X).
    { rewrite lookup_app_r by (rewrite length_path; lia).
      rewrite length_path, Nat.sub_diag.
      rewrite lookup_app_l by (rewrite length_path; unfold n_step; lia). apply path_first. }
    assert (H2 : (path G X ++ path X M ++ path M G) !! (2 * n_step)%nat = Some M).
    { rewrite lookup_app_r by (rewrite length_path; lia).
      rewrite lookup_app_r by (rewrite !length_path; lia).
      rewrite !length_path. replace (2 * n_step - n_step - n_step)%nat with 0%nat by lia.
      apply path_first. }
    assert (H3 : (path G X ++ path X M ++ path M G) !! (3 * n_step)%nat = None).
    { apply lookup_ge_None. rewrite !length_app, !length_path. lia. }
    cbn [map]. rewrite H0, H1, H2, H3. reflexivity.
Qed.


(** *** The grid of the colour plot *)

Lemma wrap_period_1 (mk : brzone) (j k : Z) :
  let L := fst (fst (bz_dims mk)) in
  (0 < L)%Z -> bz_index mk (L, j, k) = bz_index mk (0%Z, j, k).
Proof.
  cbv zeta. unfold bz_index, wrap_index. cbn [dims].
  destruct (bz_dims mk) as [[L1 L2] L3]. cbn [fst snd]. intros HL.
  rewrite Z.mod_same by lia. rewrite Z.mod_0_l by lia. reflexivity.
Qed.

Lemma wrap_period_2 (mk : brzone) (i k : Z) :
  let L := snd (fst (bz_dims mk)) in
  (0 < L)%Z -> bz_index mk (i, L, k) = bz_index mk (i, 0%Z, k).
Proof.
  cbv zeta. unfold bz_index, wrap_index. cbn [dims].
  destruct (bz_dims mk) as [[L1 L2] L3]. cbn [fst snd]. intros HL.
  rewrite Z.mod_same by lia. rewrite Z.mod_0_l by lia. reflexivity.
Qed.

(** On a mesh with as many k-points along the second axis as along the
    first, every point of the grid of the colour plot is a point of the
    mesh: the plot shows stored values of chi at the frequency zero, not
    interpolated ones, and its last row and column, at 2 pi, repeat the
    first. *)
Theorem plot_grid_is_on_the_mesh (chi : Multivar.g_k_w) (p : nat) :
  let mk := fst (kw_mesh chi) in
  let L := fst (fst (bz_dims mk)) in
  (0 < L)%Z -> snd (fst (bz_dims mk)) = L -> (0 < snd (bz_dims mk))%Z ->
  iw_position (snd (kw_mesh chi)) 0 = Some p ->
  plot_values chi
  = map (fun j => map (fun i =>
           Some (re (kw_get chi (bz_index mk (Z.of_nat i, Z.of_nat j, 0%Z)) p)))
           (seq 0 (Z.to_nat L + 1))) (seq 0 (Z.to_nat L + 1))
  /\ (forall j, bz_index mk (L, j, 0%Z) = bz_index mk (0%Z, j, 0%Z))
  /\ (forall i, bz_index mk (i, L, 0%Z) = bz_index mk (i, 0%Z, 0%Z)).
Proof.
  cbv zeta. intros HL H2 H3 Hp. split; [|split].
  - unfold plot_values, linspace_unit, range. rewrite Nat.sub_0_r, !map_map.
    apply map_ext. intros j. rewrite map_map. apply map_ext. intros i.
    replace (Z.of_nat (Z.to_nat (fst (fst (bz_dims (fst (kw_mesh chi))))) + 1) - 1)%Z
      with (fst (fst (bz_dims (fst (kw_mesh chi))))) by lia.
    unfold evaluate. rewrite Hp. cbn [mbind option_bind fmap option_fmap option_map].
    do 2 f_equal.
    rewrite <- (interp_k_on_grid chi (Z.of_nat i, Z.of_nat j, 0%Z) p) by (assumption || lia).
    f_equal. unfold grid_momentum.
    destruct (bz_dims (fst (kw_mesh chi))) as [[L1 L2] L3]. cbn [fst snd] in *. subst L2.
    f_equal. rewrite qc_0. unfold Qcdiv. ring.
  - intros j. apply (wrap_period_1 (fst (kw_mesh chi)) j 0 HL).
  - intros i. rewrite <- H2. apply (wrap_period_2 (fst (kw_mesh chi)) i 0). lia.
Qed.

Lemma plot_grid_is_on_the_mesh_witness :
  plot_values toy_kw
  = map (fun j => map (fun i =>
           Some (re (kw_get toy_kw (bz_index (fst (kw_mesh toy_kw))
                                      (Z.of_nat i, Z.of_nat j, 0%Z)) 1)))
           (seq 0 3)) (seq 0 3).
Proof.
  apply (plot_grid_is_on_the_mesh toy_kw 1); vm_compute; reflexivity.
Defined.

Lemma tpsc_cell_saves_and_is_idempotent_witness :
  tpsc_cell nat Datatypes.S {[ "tpsc.h5" := {[ "G0" := 1%nat; "chi0_qw" := 7%nat ]} ]}
  = Some (2%nat, {[ "tpsc.h5" := {[ "G0" := 1%nat; "chi0_qw" := 2%nat ]} ]})
  /\ tpsc_cell nat Datatypes.S {[ "tpsc.h5" := {[ "G0" := 1%nat; "chi0_qw" := 2%nat ]} ]}
     = Some (2%nat, {[ "tpsc.h5" := {[ "G0" := 1%nat; "chi0_qw" := 2%nat ]} ]}).
Proof.
  assert (Hrun : tpsc_cell nat Datatypes.S
                   {[ "tpsc.h5" := {[ "G0" := 1%nat; "chi0_qw" := 7%nat ]} ]}
                 = Some (2%nat, {[ "tpsc.h5" := {[ "G0" := 1%nat; "chi0_qw" := 2%nat ]} ]}))
    by (vm_compute; reflexivity).
  split; [exact Hrun|].
  apply (tpsc_cell_saves_and_is_idempotent nat Datatypes.S _ _ _ Hrun).
Defined.

End LindhardCellsFacts.

(** ** The archives and the sweeps of the DMFT scripts *)

Module DMFTAnalysisFacts.
Import Operators DMFT LoopFacts LoopInvariants DMFTFacts DMFTAnalysis.

Section WithFramework.
Context {gf hidden : Type} `{Framework gf hidden}.
Implicit Types (s : Solver gf hidden) (w : World gf hidden).

(** *** What the scripts print *)

Lemma one_band_top_stdout U k w :
  stdout (one_band_top U k w)
  = stdout w ++ PrintU U :: map (fun i => PrintIteration (i + 1) n_loops) (seq 0 k).
Proof.
  unfold one_band_top. induction k as [|k IH].
  - reflexivity.
  - rewrite range_0_S, for_each_snoc. unfold one_band_iteration at 1.
    cbn [stdout archive_write with_solver print]. rewrite IH.
    rewrite seq_S, map_app, <- app_assoc. reflexivity.
Qed.

(** what the one-band script prints when all its archives open *)
Lemma one_band_stdout (files0 : gmap string (gmap string (gmap string gf))) :
  stdout (one_band files0)
  = flat_map (fun U => PrintU U :: map (fun i => PrintIteration (i + 1) 10) (seq 0 10))
      U_values.
Proof.
  unfold one_band. generalize U_values. intros Us.
  change (flat_map (fun U => PrintU U :: map (fun i => PrintIteration (i + 1) 10) (seq 0 10)) Us)
    with (stdout (one_band_init files0)
          ++ flat_map (fun U => PrintU U :: map (fun i => PrintIteration (i + 1) 10) (seq 0 10)) Us).
  generalize (one_band_init files0). intros w.
  induction Us as [|U Us IH] using rev_ind.
  - simpl. rewrite app_nil_r. reflexivity.
  - rewrite for_each_snoc, one_band_U_top, one_band_top_stdout, IH, flat_map_app.
    cbn [flat_map]. rewrite app_nil_r, <- app_assoc. reflexivity.
Qed.

(** *** What the scripts write *)

Lemma archive_key_write path key (B : gmap string gf) w p k :
  archive_key (files (archive_write path key B w)) p k
  = if decide (p = path /\ k = key) then Some B else archive_key (files w) p k.
Proof.
  unfold archive_key, archive_write. cbn [files].
  destruct (decide (p = path)) as [->|Hp].
  - rewrite lookup_insert_eq. cbn [mbind option_bind].
    destruct (decide (k = key)) as [->|Hk].
    + rewrite decide_True by auto. apply lookup_insert_eq.
    + rewrite decide_False by tauto. rewrite lookup_insert_ne by auto.
      destruct (files w !! path); [reflexivity|]. cbn. apply lookup_empty.
  - rewrite decide_False by tauto. rewrite lookup_insert_ne by auto. reflexivity.
Qed.

Lemma files_archive_write_ne path key (B : gmap string gf) w p :
  p <> path -> files (archive_write path key B w) !! p = files w !! p.
Proof. intros Hp. unfold archive_write. cbn [files]. apply lookup_insert_ne. auto. Qed.

Lemma key_in_script_keys (i : nat) :
  (i < n_loops)%nat ->
  "G-" +:+ pretty i ∈ script_keys /\ "Sigma-" +:+ pretty i ∈ script_keys.
Proof.
  intros Hi. unfold script_keys.
  split; apply list_elem_of_In, in_flat_map; exists i;
    (split; [apply in_seq; unfold n_loops in *; lia | simpl; auto]).
Qed.

Lemma one_band_iteration_key U i w p k :
  (i < n_loops)%nat -> k ∉ script_keys ->
  archive_key (files (one_band_iteration U i w)) p k = archive_key (files w) p k.
Proof.
  intros Hi Hk. destruct (key_in_script_keys i Hi) as [HG HS].
  unfold one_band_iteration.
  rewrite !archive_key_write.
  rewrite !decide_False; [reflexivity| |]; intros [_ ->]; contradiction.
Qed.

Lemma two_band_iteration_key f mu U J i w p k :
  (i < n_loops)%nat -> k ∉ script_keys ->
  archive_key (files (two_band_iteration f mu U J i w)) p k = archive_key (files w) p k.
Proof.
  intros Hi Hk. destruct (key_in_script_keys i Hi) as [HG HS].
  unfold two_band_iteration.
  rewrite !archive_key_write.
  rewrite !decide_False; [reflexivity| |]; intros [_ ->]; contradiction.
Qed.

Lemma one_band_U_key U w p k :
  k ∉ script_keys ->
  archive_key (files (one_band_U U w)) p k = archive_key (files w) p k.
Proof.
  intros Hk. unfold one_band_U.
  apply (for_each_keeps (fun w' => archive_key (files w') p k = archive_key (files w) p k)).
  - intros i w' Hi Hw'. rewrite one_band_iteration_key; [exact Hw'| |exact Hk].
    apply elem_of_range in Hi. lia.
  - reflexivity.
Qed.

Lemma two_band_U_key f coeff U w p k :
  k ∉ script_keys ->
  archive_key (files (two_band_U f coeff U w)) p k = archive_key (files w) p k.
Proof.
  intros Hk. unfold two_band_U. cbv zeta.
  apply (for_each_keeps (fun w' => archive_key (files w') p k = archive_key (files w) p k)).
  - intros i w' Hi Hw'. rewrite two_band_iteration_key; [exact Hw'| |exact Hk].
    apply elem_of_range in Hi. lia.
  - reflexivity.
Qed.

(** The scripts write the keys G-0 ... G-9 and Sigma-0 ... Sigma-9 and
    nothing else: under any other key every archive, old or new, reads
    as before the run. *)
Theorem scripts_write_only_their_keys (f : filling_t)
    (files0 : gmap string (gmap string (gmap string gf))) (p k : string) :
  k ∉ script_keys ->
  archive_key (files (one_band files0)) p k = archive_key files0 p k
  /\ archive_key (files (two_band f files0)) p k = archive_key files0 p k.
Proof.
  intros Hk. split.
  - unfold one_band.
    apply (for_each_keeps (fun w' => archive_key (files w') p k = archive_key files0 p k)).
    + intros U w' _ Hw'. rewrite one_band_U_key by exact Hk. exact Hw'.
    + reflexivity.
  - unfold two_band.
    apply (for_each_keeps (fun w' => archive_key (files w') p k = archive_key files0 p k)).
    + intros coeff w' _ Hw'.
      apply (for_each_keeps (fun w' => archive_key (files w') p k = archive_key files0 p k)).
      * intros U w'' _ Hw''. rewrite two_band_U_key by exact Hk. exact Hw''.
      * exact Hw'.
    + reflexivity.
Qed.


(** *** The archives the analysis cells open *)

Lemma two_band_read_path_ne (f f' : filling_t) (U J U' J' : Qc) :
  two_band_read_path f' U' J' <> two_band_path f U J.
Proof. discriminate. Qed.

Lemma two_band_iteration_files f mu U J i w p :
  p <> two_band_path f U J ->
  files (two_band_iteration f mu U J i w) !! p = files w !! p.
Proof.
  intros Hp. unfold two_band_iteration.
  rewrite !files_archive_write_ne by exact Hp. reflexivity.
Qed.

Lemma two_band_files f files0 p :
  (forall U J, p <> two_band_path f U J) ->
  files (two_band f files0) !! p = files0 !! p.
Proof.
  intros Hp. unfold two_band.
  apply (for_each_keeps (fun w' => files w' !! p = files0 !! p)); [|reflexivity].
  intros coeff w' _ Hw'.
  apply (for_each_keeps (fun w' => files w' !! p = files0 !! p)); [|exact Hw'].
  intros U w'' _ Hw''. unfold two_band_U. cbv zeta.
  apply (for_each_keeps (fun w' => files w' !! p = files0 !! p)); [|exact Hw''].
  intros i w3 _ Hw3. rewrite two_band_iteration_files by apply Hp. exact Hw3.
Qed.

(** The two-band script writes under [data/two_bands/], the analysis
    cells of its notebook open [data/two_band/...]: no archive that they
    open is created or changed by the script, and after a run in an
    empty directory every read of theirs fails. *)
Theorem two_band_reads_miss_the_script (f f' : filling_t) (U J : Qc)
    (files0 : gmap string (gmap string (gmap string gf))) (key name : string) :
  files (two_band f files0) !! two_band_read_path f' U J
  = files0 !! two_band_read_path f' U J
  /\ archive_read (files (two_band f ∅)) (two_band_read_path f' U J) key name = None.
Proof.
  split.
  - apply two_band_files. intros U' J'. apply two_band_read_path_ne.
  - unfold archive_read, archive_key.
    rewrite two_band_files by (intros U' J'; apply two_band_read_path_ne).
    rewrite lookup_empty. reflexivity.
Qed.

Lemma archive_read_write path key (B : gmap string gf) w p k b :
  archive_read (files (archive_write path key B w)) p k b
  = if decide (p = path /\ k = key) then B !! b else archive_read (files w) p k b.
Proof.
  unfold archive_read. rewrite archive_key_write. case_decide; reflexivity.
Qed.

Lemma archive_write_readable path key (B : gmap string gf) w p k b :
  is_Some (B !! b) ->
  is_Some (archive_read (files w) p k b) ->
  is_Some (archive_read (files (archive_write path key B w)) p k b).
Proof. intros HB Hr. rewrite archive_read_write. case_decide; assumption. Qed.

Lemma one_band_iteration_readable U i w p k b :
  has_struct one_band_gf_struct (S w) -> b ∈ map fst one_band_gf_struct ->
  is_Some (archive_read (files w) p k b) ->
  is_Some (archive_read (files (one_band_iteration U i w)) p k b).
Proof.
  intros Hs Hb Hr.
  pose proof (one_band_iteration_has_struct _ U i w Hs) as Hs'.
  destruct (proj1 (has_struct_spec _ _) Hs' b Hb) as (HG & _ & HS).
  unfold one_band_iteration in *. cbn [S archive_write] in HG, HS.
  apply archive_write_readable; [exact HS|].
  apply archive_write_readable; [exact HG|]. exact Hr.
Qed.

Lemma one_band_iteration_written U i w b :
  has_struct one_band_gf_struct (S w) -> b ∈ map fst one_band_gf_struct ->
  is_Some (archive_read (files (one_band_iteration U i w)) (one_band_path U)
             ("G-" +:+ pretty i) b)
  /\ is_Some (archive_read (files (one_band_iteration U i w)) (one_band_path U)
                ("Sigma-" +:+ pretty i) b).
Proof.
  intros Hs Hb.
  pose proof (one_band_iteration_has_struct _ U i w Hs) as Hs'.
  destruct (proj1 (has_struct_spec _ _) Hs' b Hb) as (HG & _ & HS).
  unfold one_band_iteration in *. cbn [S archive_write] in HG, HS.
  split.
  - apply archive_write_readable; [exact HS|].
    rewrite archive_read_write, decide_True by auto. exact HG.
  - rewrite archive_read_write, decide_True by auto. exact HS.
Qed.

Lemma one_band_top_readable U n w p k b :
  has_struct one_band_gf_struct (S w) -> b ∈ map fst one_band_gf_struct ->
  is_Some (archive_read (files w) p k b) ->
  is_Some (archive_read (files (one_band_top U n w)) p k b).
Proof.
  intros Hs Hb Hr. induction n as [|n IH]; [exact Hr|].
  rewrite one_band_top_S. apply one_band_iteration_readable; [|exact Hb|exact IH].
  apply one_band_top_has_struct, Hs.
Qed.

Lemma one_band_top_written U n i w b :
  has_struct one_band_gf_struct (S w) -> b ∈ map fst one_band_gf_struct ->
  (i < n)%nat ->
  is_Some (archive_read (files (one_band_top U n w)) (one_band_path U) ("G-" +:+ pretty i) b)
  /\ is_Some (archive_read (files (one_band_top U n w)) (one_band_path U)
                ("Sigma-" +:+ pretty i) b).
Proof.
  intros Hs Hb. induction n as [|n IH]; [lia|]. intros Hi.
  rewrite one_band_top_S.
  pose proof (one_band_top_has_struct _ U n w Hs) as Hn.
  destruct (decide (i = n)) as [->|Hne].
  - apply one_band_iteration_written; assumption.
  - destruct (IH ltac:(lia)) as [HG HS].
    split; apply one_band_iteration_readable; assumption.
Qed.

(** after the whole script, every key of every iteration of every [U] of
    the sweep holds both blocks *)
Lemma one_band_script_written (Us : list Qc) files0 U i b :
  U ∈ Us -> (i < n_loops)%nat -> b ∈ map fst one_band_gf_struct ->
  let w := for_each Us one_band_U (one_band_init files0) in
  is_Some (archive_read (files w) (one_band_path U) ("G-" +:+ pretty i) b)
  /\ is_Some (archive_read (files w) (one_band_path U) ("Sigma-" +:+ pretty i) b).
Proof.
  cbv zeta. intros HU Hi Hb. induction Us as [|U' Us IH] using rev_ind.
  - inversion HU.
  - rewrite for_each_snoc, one_band_U_top.
    pose proof (one_band_script_has_struct Us files0) as Hs.
    apply elem_of_app in HU. destruct HU as [HU|HU].
    + destruct (IH HU) as [HG HS].
      split; apply one_band_top_readable; assumption.
    + apply list_elem_of_singleton in HU. subst U'.
      apply one_band_top_written; assumption.
Qed.

Lemma one_band_reads_written :
  Forall (fun r : string * string * string =>
            Exists (fun U => Exists (fun i =>
              fst (fst r) = one_band_path U
              /\ (snd (fst r) = "G-" +:+ pretty i \/ snd (fst r) = "Sigma-" +:+ pretty i)
              /\ snd r ∈ map fst one_band_gf_struct) (range 0 n_loops)) U_values)
         one_band_reads.
Proof. by_evaluation. Qed.

(** after a run in which all the archives opened, every read of the
    analysis cells finds its archive, its key and its block *)
Lemma one_band_reads_found (files0 : gmap string (gmap string (gmap string gf))) :
  Forall (fun r : string * string * string =>
            is_Some (archive_read (files (one_band files0)) (fst (fst r)) (snd (fst r)) (snd r)))
         one_band_reads.
Proof.
  eapply Forall_impl; [exact one_band_reads_written|].
  intros [[p k] b] HU. cbn [fst snd] in *.
  apply Exists_exists in HU. destruct HU as (U & HU & Hi).
  apply Exists_exists in Hi. destruct Hi as (i & Hi & -> & Hk & Hb).
  apply elem_of_range in Hi.
  destruct (one_band_script_written U_values files0 U i b HU ltac:(lia) Hb) as [HG HS].
  destruct Hk as [->| ->]; assumption.
Qed.


(** *** What a loop inherits from the loop before it *)

Lemma assign_all_dom (g : gf) (B B' : gmap string gf) :
  dom B = dom B' -> assign_all g B = assign_all g B'.
Proof.
  intros Hd. apply map_eq. intros name. rewrite !lookup_assign_all.
  destruct (B !! name) as [x|] eqn:Hx, (B' !! name) as [x'|] eqn:Hx'; try reflexivity.
  - apply not_elem_of_dom in Hx'. rewrite <- Hd in Hx'.
    apply not_elem_of_dom in Hx'. congruence.
  - apply not_elem_of_dom in Hx. rewrite Hd in Hx.
    apply not_elem_of_dom in Hx. congruence.
Qed.

Lemma imap_const_dom (F : string -> gf) (B B' : gmap string gf) :
  dom B = dom B' ->
  map_imap (fun name _ => Some (F name)) B = map_imap (fun name _ => Some (F name)) B'.
Proof.
  intros Hd. apply map_eq. intros name. rewrite !map_lookup_imap.
  destruct (B !! name) as [x|] eqn:Hx, (B' !! name) as [x'|] eqn:Hx'; try reflexivity.
  - apply not_elem_of_dom in Hx'. rewrite <- Hd in Hx'.
    apply not_elem_of_dom in Hx'. congruence.
  - apply not_elem_of_dom in Hx. rewrite Hd in Hx.
    apply not_elem_of_dom in Hx. congruence.
Qed.

Lemma S_one_band_iteration U i w :
  S (one_band_iteration U i w) = solve (one_band_update U (S w)) (one_band_h_int U) one_band_params.
Proof. reflexivity. Qed.

Lemma S_two_band_iteration f mu U J i w :
  S (two_band_iteration f mu U J i w)
  = solve (two_band_update mu i (S w)) (h_int n_orbitals U J) two_band_params.
Proof. reflexivity. Qed.

Lemma S_for_each_iteration {A : Type} (l : list A) (body : A -> World gf hidden -> World gf hidden)
    (step : A -> Solver gf hidden -> Solver gf hidden) w w' :
  (forall a w, S (body a w) = step a (S w)) ->
  S w = S w' -> S (for_each l body w) = S (for_each l body w').
Proof.
  intros Hstep. revert w w'. unfold for_each.
  induction l as [|a l IH]; intros w w' Heq; [exact Heq|].
  simpl. apply IH. rewrite !Hstep, Heq. reflexivity.
Qed.

Lemma one_band_first_iteration U w w' :
  same_solver_shape (S w) (S w') ->
  S (one_band_iteration U 0 (one_band_start U w))
  = S (one_band_iteration U 0 (one_band_start U w')).
Proof.
  intros (Hi & HG & HG0 & HS).
  rewrite !S_one_band_iteration. unfold one_band_start, one_band_update, one_band_g, solve.
  cbn [S with_solver print G_iw G0_iw Sigma_iw internal].
  rewrite (assign_all_dom _ (G_iw (S w)) (G_iw (S w'))) by exact HG.
  rewrite (assign_all_dom _ (G0_iw (S w)) (G0_iw (S w'))) by exact HG0.
  rewrite Hi.
  f_equal. apply imap_const_dom. exact HS.
Qed.

Lemma two_band_first_iteration f mu U J w w' :
  same_solver_shape (S w) (S w') ->
  S (two_band_iteration f mu U J 0 (two_band_start mu w))
  = S (two_band_iteration f mu U J 0 (two_band_start mu w')).
Proof.
  intros (Hi & HG & HG0 & HS).
  rewrite !S_two_band_iteration. unfold two_band_start, two_band_update, solve.
  cbn [S with_solver print G_iw G0_iw Sigma_iw internal Nat.ltb Nat.leb].
  rewrite (assign_all_dom _ (G0_iw (S w)) (G0_iw (S w'))) by exact HG0.
  rewrite Hi.
  f_equal.
  - apply imap_const_dom. exact HG.
  - apply imap_const_dom. exact HS.
Qed.

(** The loop for one value of [U] starts from the solver that the loop
    before it left.  Of that solver only the state of the sampler and
    the names of the blocks matter: its Green's functions and
    self-energy are all overwritten before they are read. *)
Theorem loop_forgets_previous_green_functions (f : filling_t) (coeff U : Qc) w w' :
  same_solver_shape (S w) (S w') ->
  S (one_band_U U w) = S (one_band_U U w')
  /\ S (two_band_U f coeff U w) = S (two_band_U f coeff U w').
Proof.
  intros Hshape. split.
  - unfold one_band_U, n_loops.
    change (range 0 10) with (0%nat :: range 1 10). rewrite !for_each_cons.
    apply (S_for_each_iteration (range 1 10) (one_band_iteration U)
             (fun _ s => solve (one_band_update U s) (one_band_h_int U) one_band_params)).
    + intros i w0. apply S_one_band_iteration.
    + apply one_band_first_iteration, Hshape.
  - unfold two_band_U, n_loops. cbv zeta.
    change (range 0 10) with (0%nat :: range 1 10). rewrite !for_each_cons.
    apply (S_for_each_iteration (range 1 10)
             (two_band_iteration f (two_band_mu f coeff U (coeff * U)) U (coeff * U))
             (fun i s => solve (two_band_update (two_band_mu f coeff U (coeff * U)) i s)
                           (h_int n_orbitals U (coeff * U)) two_band_params)).
    + intros i w0. apply S_two_band_iteration.
    + apply two_band_first_iteration, Hshape.
Qed.

Section IptSweep.
Variable gtau : Type.
Variable Fourier_to_tau : gf -> gtau.
Variable Fourier_to_iw : gtau -> gf.
Variable tau_zero : gtau.
Variable tau_mul : gtau -> gtau -> gtau.
Variable tau_scale : Qc -> gtau -> gtau.

(** In the IPT sweep the solver object is built once and reused for
    every [U]; the loop for [U] gives the solver that it gives on a
    solver fresh from the constructor: nothing of the previous [U] is
    left. *)
Theorem ipt_loop_forgets_previous_U (U : Qc) (s : IPTSolver gtau) :
  ipt_U gtau Fourier_to_tau Fourier_to_iw tau_mul tau_scale U s
  = ipt_U gtau Fourier_to_tau Fourier_to_iw tau_mul tau_scale U
      (IPTSolver_new gtau tau_zero (ipt_beta gtau s)).
Proof.
  rewrite !ipt_U_iterations.
  change 30%nat with (Datatypes.S 29). rewrite !Nat.iter_succ_r.
  reflexivity.
Qed.
End IptSweep.


(** *** Every iteration is kept *)

Lemma key_Sigma_inj (i j : nat) : "Sigma-" +:+ pretty i = "Sigma-" +:+ pretty j -> i = j.
Proof.
  intros Heq. apply (inj (@pretty nat _)).
  injection Heq as Heq. exact Heq.
Qed.

Lemma one_band_iteration_keys U i w p k :
  archive_key (files (one_band_iteration U i w)) p k
  = if decide (p = one_band_path U /\ k = "Sigma-" +:+ pretty i)
    then Some (Sigma_iw (S (one_band_iteration U i w)))
    else if decide (p = one_band_path U /\ k = "G-" +:+ pretty i)
         then Some (G_iw (S (one_band_iteration U i w)))
         else archive_key (files w) p k.
Proof. unfold one_band_iteration. rewrite !archive_key_write. reflexivity. Qed.

Lemma two_band_iteration_keys f mu U J i w p k :
  archive_key (files (two_band_iteration f mu U J i w)) p k
  = if decide (p = two_band_path f U J /\ k = "Sigma-" +:+ pretty i)
    then Some (Sigma_iw (S (two_band_iteration f mu U J i w)))
    else if decide (p = two_band_path f U J /\ k = "G-" +:+ pretty i)
         then Some (G_iw (S (two_band_iteration f mu U J i w)))
         else archive_key (files w) p k.
Proof. unfold two_band_iteration. rewrite !archive_key_write. reflexivity. Qed.

Lemma one_band_keeps U k i w :
  (i < k)%nat ->
  archive_key (files (one_band_top U k w)) (one_band_path U) ("G-" +:+ pretty i)
  = Some (G_iw (S (one_band_top U (i + 1) w)))
  /\ archive_key (files (one_band_top U k w)) (one_band_path U) ("Sigma-" +:+ pretty i)
     = Some (Sigma_iw (S (one_band_top U (i + 1) w))).
Proof.
  induction k as [|k IH]; [lia|]. intros Hi.
  rewrite one_band_top_S, !one_band_iteration_keys, <- one_band_top_S.
  rewrite (decide_False (P := _ /\ "G-" +:+ pretty i = "Sigma-" +:+ pretty k))
    by (intros [_ Heq]; exact (key_G_Sigma _ _ Heq)).
  rewrite (decide_False (P := _ /\ "Sigma-" +:+ pretty i = "G-" +:+ pretty k))
    by (intros [_ Heq]; symmetry in Heq; exact (key_G_Sigma _ _ Heq)).
  destruct (decide (i = k)) as [->|Hne].
  - rewrite !decide_True by auto. rewrite Nat.add_1_r. auto.
  - rewrite !decide_False by (intros [_ Heq];
      (apply key_G_inj in Heq || apply key_Sigma_inj in Heq); lia).
    apply IH. lia.
Qed.

Lemma two_band_keeps f coeff U k i w :
  (i < k)%nat ->
  archive_key (files (two_band_top f coeff U k w)) (two_band_path f U (coeff * U))
    ("G-" +:+ pretty i)
  = Some (G_iw (S (two_band_top f coeff U (i + 1) w)))
  /\ archive_key (files (two_band_top f coeff U k w)) (two_band_path f U (coeff * U))
       ("Sigma-" +:+ pretty i)
     = Some (Sigma_iw (S (two_band_top f coeff U (i + 1) w))).
Proof.
  induction k as [|k IH]; [lia|]. intros Hi.
  rewrite two_band_top_S, !two_band_iteration_keys, <- two_band_top_S.
  rewrite (decide_False (P := _ /\ "G-" +:+ pretty i = "Sigma-" +:+ pretty k))
    by (intros [_ Heq]; exact (key_G_Sigma _ _ Heq)).
  rewrite (decide_False (P := _ /\ "Sigma-" +:+ pretty i = "G-" +:+ pretty k))
    by (intros [_ Heq]; symmetry in Heq; exact (key_G_Sigma _ _ Heq)).
  destruct (decide (i = k)) as [->|Hne].
  - rewrite !decide_True by auto. rewrite Nat.add_1_r. auto.
  - rewrite !decide_False by (intros [_ Heq];
      (apply key_G_inj in Heq || apply key_Sigma_inj in Heq); lia).
    apply IH. lia.
Qed.

(** At the top of iteration [k] of a loop, and so at its end, the
    archive of the loop holds under G-i and Sigma-i, for every earlier
    iteration [i], the Green's function and the self-energy that the
    solver held at the end of iteration [i]: later iterations do not
    write over them. *)
Theorem archive_keeps_every_iteration (f : filling_t) (coeff U : Qc) (k i : nat) w :
  (i < k)%nat ->
  (archive_key (files (one_band_top U k w)) (one_band_path U) ("G-" +:+ pretty i)
   = Some (G_iw (S (one_band_top U (i + 1) w)))
   /\ archive_key (files (one_band_top U k w)) (one_band_path U) ("Sigma-" +:+ pretty i)
      = Some (Sigma_iw (S (one_band_top U (i + 1) w))))
  /\ (archive_key (files (two_band_top f coeff U k w)) (two_band_path f U (coeff * U))
        ("G-" +:+ pretty i)
      = Some (G_iw (S (two_band_top f coeff U (i + 1) w)))
      /\ archive_key (files (two_band_top f coeff U k w)) (two_band_path f U (coeff * U))
           ("Sigma-" +:+ pretty i)
         = Some (Sigma_iw (S (two_band_top f coeff U (i + 1) w)))).
Proof.
  intros Hi. split; [apply one_band_keeps|apply two_band_keeps]; exact Hi.
Qed.

End WithFramework.

(** *** The names of the archives *)

Lemma this_Qcplus (x y : Qc) : (this (x + y) == this x + this y)%Q.
Proof. unfold Qcplus, Q2Qc. cbn [this]. apply Qred_correct. Qed.

Lemma this_Qcmult (x y : Qc) : (this (x * y) == this x * this y)%Q.
Proof. unfold Qcmult, Q2Qc. cbn [this]. apply Qred_correct. Qed.

(** ["%.2f" % k] for an integer [k] *)
Lemma fmt_2f_integer (k : Z) : fmt_2f (qc k 1) = pretty k +:+ ".00".
Proof.
  unfold fmt_2f.
  assert (Hc : Qfloor (this (qc k 1 * qc 100 1 + qc 1 2)) = (100 * k)%Z).
  { assert (Heq : (this (qc k 1 * qc 100 1 + qc 1 2) == (200 * k + 1) # 2)%Q).
    { rewrite this_Qcplus, this_Qcmult, !MultivarFacts.this_qc.
      assert (Hh : (this (qc 1 2) == 1 # 2)%Q)
        by (unfold qc, Q2Qc; cbn [this]; apply Qred_correct).
      rewrite Hh. unfold Qeq, Qplus, Qmult, inject_Z. cbn [Qnum Qden].
      rewrite !Pos.mul_1_l. ring. }
    rewrite Heq. unfold Qfloor.
    symmetry. apply (Z.div_unique (200 * k + 1) 2 (100 * k) 1); lia. }
  rewrite Hc.
  replace (100 * k / 100)%Z with k by (rewrite Z.mul_comm, Z.div_mul; lia).
  replace ((100 * k) mod 100)%Z with 0%Z by (rewrite Z.mul_comm, Z.mod_mul; lia).
  reflexivity.
Qed.

Lemma length_append (s1 s2 : string) :
  String.length (s1 +:+ s2) = (String.length s1 + String.length s2)%nat.
Proof. induction s1 as [|c s1 IH]; simpl; [reflexivity|]. rewrite IH. reflexivity. Qed.

Lemma append_inj_r (s1 s2 t : string) : s1 +:+ t = s2 +:+ t -> s1 = s2.
Proof.
  revert s2. induction s1 as [|c s1 IH]; intros [|c2 s2] Heq; simpl in Heq.
  - reflexivity.
  - apply (f_equal String.length) in Heq. simpl in Heq. rewrite !length_append in Heq.
    simpl in Heq. lia.
  - apply (f_equal String.length) in Heq. simpl in Heq. rewrite !length_append in Heq.
    simpl in Heq. lia.
  - injection Heq as -> Heq. f_equal. apply IH, Heq.
Qed.

(** For an integer U the archive of the one-band script is
    [data/one_band/half-U<U>.00.h5], and two integers have different
    archives; the thirty-six runs of the two-band script, for either
    filling, write to thirty-six different archives.  No loop writes
    into the archive of another. *)
Theorem archives_do_not_collide :
  (forall k : Z,
     one_band_path (qc k 1) = "data/one_band/half-U" +:+ (pretty k +:+ ".00") +:+ ".h5")
  /\ (forall k k' : Z, one_band_path (qc k 1) = one_band_path (qc k' 1) -> k = k')
  /\ (forall f : filling_t, NoDup (two_band_paths f)).
Proof.
  split; [|split].
  - intros k. unfold one_band_path. rewrite fmt_2f_integer. reflexivity.
  - intros k k' Heq. unfold one_band_path in Heq. rewrite !fmt_2f_integer in Heq.
    apply (inj (String.append _)) in Heq.
    apply append_inj_r, append_inj_r in Heq.
    apply (inj pretty) in Heq. exact Heq.
  - intros [|]; by_evaluation.
Qed.

End DMFTAnalysisFacts.

(** ** What a run reads *)

Module DMFTIndependenceFacts.
Import Operators DMFT LoopFacts LoopInvariants DMFTFacts DMFTAnalysis DMFTAnalysisFacts.

Section WithFramework.
Context {gf hidden : Type} `{Framework gf hidden}.
Implicit Types (s : Solver gf hidden) (w : World gf hidden).

(** *** A run does not read the archives *)

Lemma S_one_band_top U n w1 w2 :
  S w1 = S w2 -> S (one_band_top U n w1) = S (one_band_top U n w2).
Proof.
  intros HS. induction n as [|n IH].
  - unfold one_band_top. cbn. rewrite HS. reflexivity.
  - rewrite !one_band_top_S, !S_one_band_iteration, IH. reflexivity.
Qed.

Lemma S_one_band_sweep (Us : list Qc) w1 w2 :
  S w1 = S w2 -> S (for_each Us one_band_U w1) = S (for_each Us one_band_U w2).
Proof.
  intros HS. induction Us as [|U Us IH] using rev_ind; [exact HS|].
  rewrite !for_each_snoc, !one_band_U_top. apply S_one_band_top, IH.
Qed.

Lemma one_band_iteration_agree U i w1 w2 p k :
  S w1 = S w2 ->
  archive_key (files w1) p k = archive_key (files w2) p k
  \/ (p = one_band_path U /\ (k = "G-" +:+ pretty i \/ k = "Sigma-" +:+ pretty i)) ->
  archive_key (files (one_band_iteration U i w1)) p k
  = archive_key (files (one_band_iteration U i w2)) p k.
Proof.
  intros HS Hk.
  assert (HS' : S (one_band_iteration U i w1) = S (one_band_iteration U i w2))
    by (rewrite !S_one_band_iteration, HS; reflexivity).
  rewrite !one_band_iteration_keys, HS'.
  repeat case_decide; try reflexivity.
  destruct Hk as [Hk|[-> [-> | ->]]]; [exact Hk| |]; tauto.
Qed.

Lemma one_band_top_agree U n w1 w2 p k :
  S w1 = S w2 ->
  archive_key (files w1) p k = archive_key (files w2) p k
  \/ (p = one_band_path U
      /\ exists i, (i < n)%nat /\ (k = "G-" +:+ pretty i \/ k = "Sigma-" +:+ pretty i)) ->
  archive_key (files (one_band_top U n w1)) p k
  = archive_key (files (one_band_top U n w2)) p k.
Proof.
  intros HS. induction n as [|n IH]; intros Hk.
  - destruct Hk as [Hk|(_ & i & Hi & _)]; [exact Hk|lia].
  - rewrite !one_band_top_S.
    apply one_band_iteration_agree; [apply S_one_band_top, HS|].
    destruct Hk as [Hk|(Hp & i & Hi & Hk)].
    + left. apply IH. left. exact Hk.
    + destruct (decide (i = n)) as [->|Hne].
      * right. auto.
      * left. apply IH. right. split; [exact Hp|]. exists i. split; [lia|exact Hk].
Qed.

Lemma one_band_sweep_agree (Us : list Qc) w1 w2 p k :
  S w1 = S w2 ->
  archive_key (files w1) p k = archive_key (files w2) p k
  \/ (exists U i, U ∈ Us /\ p = one_band_path U /\ (i < n_loops)%nat
                  /\ (k = "G-" +:+ pretty i \/ k = "Sigma-" +:+ pretty i)) ->
  archive_key (files (for_each Us one_band_U w1)) p k
  = archive_key (files (for_each Us one_band_U w2)) p k.
Proof.
  intros HS. induction Us as [|U' Us IH] using rev_ind; intros Hk.
  - destruct Hk as [Hk|(U & i & HU & _)]; [exact Hk|]. inversion HU.
  - rewrite !for_each_snoc, !one_band_U_top.
    apply one_band_top_agree; [apply S_one_band_sweep, HS|].
    destruct Hk as [Hk|(U & i & HU & Hp & Hi & Hk)].
    + left. apply IH. left. exact Hk.
    + apply elem_of_app in HU. destruct HU as [HU|HU].
      * left. apply IH. right. exists U, i. auto.
      * apply list_elem_of_singleton in HU. subst U'.
        right. split; [exact Hp|]. exists i. auto.
Qed.

(** a run in which all the archives opened has written every entry
    that the analysis cells read *)
Lemma one_band_run_is_fresh
    (files0 files0' : gmap string (gmap string (gmap string gf))) :
  S (one_band files0) = S (one_band files0')
  /\ Forall (fun r : string * string * string =>
               archive_read (files (one_band files0)) (fst (fst r)) (snd (fst r)) (snd r)
               = archive_read (files (one_band files0')) (fst (fst r)) (snd (fst r)) (snd r))
            one_band_reads.
Proof.
  split; [apply S_one_band_sweep; reflexivity|].
  eapply Forall_impl; [exact one_band_reads_written|].
  intros [[p k] b] HU. cbn [fst snd] in *.
  apply Exists_exists in HU. destruct HU as (U & HU & Hi).
  apply Exists_exists in Hi. destruct Hi as (i & Hi & -> & Hk & Hb).
  apply elem_of_range in Hi.
  unfold archive_read. f_equal. unfold one_band.
  apply one_band_sweep_agree; [reflexivity|].
  right. exists U, i. repeat split; auto; lia.
Qed.

Section IptEven.
Variable gtau : Type.
Variable Fourier_to_tau : gf -> gtau.
Variable Fourier_to_iw : gtau -> gf.
Variable tau_mul : gtau -> gtau -> gtau.
Variable tau_scale : Qc -> gtau -> gtau.

(** The second-order self-energy is even in U: [solve] and the whole
    DMFT loop of the IPT solver give the same solver for U and for -U. *)
Theorem ipt_is_even_in_U (U : Qc) (s : IPTSolver gtau) :
  ipt_solve gtau Fourier_to_tau Fourier_to_iw tau_mul tau_scale (- U) s
  = ipt_solve gtau Fourier_to_tau Fourier_to_iw tau_mul tau_scale U s
  /\ ipt_U gtau Fourier_to_tau Fourier_to_iw tau_mul tau_scale (- U) s
     = ipt_U gtau Fourier_to_tau Fourier_to_iw tau_mul tau_scale U s.
Proof.
  assert (Hsolve : forall x : IPTSolver gtau,
            ipt_solve gtau Fourier_to_tau Fourier_to_iw tau_mul tau_scale (- U) x
            = ipt_solve gtau Fourier_to_tau Fourier_to_iw tau_mul tau_scale U x).
  { intros x. unfold ipt_solve. replace ((- U) ^ 2) with (U ^ 2) by (simpl; ring).
    reflexivity. }
  split; [apply Hsolve|].
  rewrite !ipt_U_iterations.
  generalize (ipt_start gtau s). intros x0.
  generalize 30%nat. intros n. induction n as [|n IH]; [reflexivity|].
  rewrite !Nat.iter_succ, IH. unfold ipt_iteration. apply Hsolve.
Qed.
End IptEven.

End WithFramework.
End DMFTIndependenceFacts.

(** ** The cell of the single-orbital notebook *)

Module DMFTFilesFacts.
Import Operators DMFT LoopFacts LoopInvariants DMFTFacts DMFTAnalysis DMFTAnalysisFacts
  DMFTIndependenceFacts DMFTFiles.

(** every archive of the sweep lies in [data/one_band] *)
Lemma dirname_one_band_path :
  Forall (fun U => dirname (one_band_path U) = Some "data/one_band") U_values.
Proof. by_evaluation. Qed.

Section WithFramework.
Context {gf hidden : Type} `{Framework gf hidden}.
Implicit Types (w : World gf hidden).

Lemma for_each_raised {A : Type} (l : list A) (f : A -> World gf hidden -> outcome) w :
  for_each l (fun a r => and_then r (f a)) (Raised w) = Raised w.
Proof. induction l as [|a l IH]; [reflexivity|]. rewrite for_each_cons. exact IH. Qed.

(** the iteration is the part before the [with] and the two writes *)
Lemma one_band_iteration_solved U i w :
  one_band_iteration U i w
  = archive_write (one_band_path U) ("Sigma-" +:+ pretty i)
      (Sigma_iw (S (one_band_solved U i w)))
      (archive_write (one_band_path U) ("G-" +:+ pretty i)
         (G_iw (S (one_band_solved U i w))) (one_band_solved U i w)).
Proof. reflexivity. Qed.

Lemma one_band_top_in dirs U k w :
  can_open dirs (one_band_path U) = true ->
  for_each (range 0 k) (fun i r => and_then r (one_band_iteration_in dirs U i))
    (Finished (one_band_start U w))
  = Finished (one_band_top U k w).
Proof.
  intros Hopen. induction k as [|k IH]; [reflexivity|].
  rewrite range_0_S, for_each_snoc, IH, one_band_top_S. cbn [and_then].
  unfold one_band_iteration_in. rewrite Hopen. reflexivity.
Qed.

Lemma one_band_sweep_in dirs (Us : list Qc) w :
  Forall (fun U => can_open dirs (one_band_path U) = true) Us ->
  for_each Us (fun U r => and_then r (one_band_U_in dirs U)) (Finished w)
  = Finished (for_each Us one_band_U w).
Proof.
  induction Us as [|U Us IH] using rev_ind; [reflexivity|].
  intros Hall. apply Forall_app in Hall. destruct Hall as [HUs HU].
  apply Forall_inv in HU.
  rewrite !for_each_snoc, IH by exact HUs. cbn [and_then].
  unfold one_band_U_in. rewrite one_band_top_in by exact HU.
  rewrite one_band_U_top. reflexivity.
Qed.

(** with its directory the cell runs to its end *)
Lemma one_band_cell_finishes dirs files0 :
  "data/one_band" ∈ dirs -> one_band_cell dirs files0 = Finished (one_band files0).
Proof.
  intros Hdir. unfold one_band_cell, one_band. apply one_band_sweep_in.
  eapply Forall_impl; [exact dirname_one_band_path|].
  intros U HU. cbv beta in HU. unfold can_open. rewrite HU.
  apply bool_decide_eq_true_2, Hdir.
Qed.

Lemma U_values_first :
  U_values = qc 1 1 :: map (fun k => qc (Z.of_nat k) 1) (range 2 13).
Proof. reflexivity. Qed.

Lemma one_band_U_in_raises dirs U w :
  can_open dirs (one_band_path U) = false ->
  one_band_U_in dirs U w = Raised (one_band_solved U 0 (one_band_start U w)).
Proof.
  intros Hopen. unfold one_band_U_in, n_loops.
  change (range 0 10) with (0%nat :: range 1 10). rewrite for_each_cons. cbn [and_then].
  unfold one_band_iteration_in. rewrite Hopen. apply for_each_raised.
Qed.

(** without it the first [with HDFArchive] raises *)
Lemma one_band_cell_raises dirs files0 :
  "data/one_band" ∉ dirs ->
  one_band_cell dirs files0
  = Raised (one_band_solved (qc 1 1) 0 (one_band_start (qc 1 1) (one_band_init files0))).
Proof.
  intros Hdir. unfold one_band_cell. rewrite U_values_first, for_each_cons.
  cbn [and_then]. rewrite one_band_U_in_raises; [apply for_each_raised|].
  unfold can_open.
  assert (Hd : dirname (one_band_path (qc 1 1)) = Some "data/one_band") by by_evaluation.
  rewrite Hd. apply bool_decide_eq_false_2, Hdir.
Qed.

(** What the cell of the single-orbital notebook itself prints,
    whatever the solver returns.  Where [data/one_band] exists the cell
    runs to its end and prints, for each U of the sweep, the line
    "U = ..." and the ten lines "Iteration = 1 / 10" to
    "Iteration = 10 / 10".  Where it does not, the cell, which does not
    create it, is stopped by its first [with HDFArchive]: it has
    printed "U = 1.0" and "Iteration = 1 / 10", and has written no
    archive. *)
Theorem one_band_prints (dirs : gset string)
    (files0 : gmap string (gmap string (gmap string gf))) :
  let r := one_band_cell dirs files0 in
  if bool_decide ("data/one_band" ∈ dirs) then
    finished r = true
    /\ stdout (world_of r)
       = flat_map (fun U => PrintU U :: map (fun i => PrintIteration (i + 1) 10) (seq 0 10))
           U_values
  else
    finished r = false
    /\ stdout (world_of r) = [PrintU (qc 1 1); PrintIteration 1 10]
    /\ files (world_of r) = files0.
Proof.
  cbv zeta. case_bool_decide as Hdir.
  - rewrite one_band_cell_finishes by exact Hdir. cbn [finished world_of].
    split; [reflexivity|]. apply one_band_stdout.
  - rewrite one_band_cell_raises by exact Hdir. cbn [finished world_of].
    repeat split.
Qed.

(** Where [data/one_band] exists, every read of the analysis cells of
    the single-orbital notebook finds its file, its key and its block
    after a run of the cell, whatever the solver returned and whatever
    archives the directory held.  Where it does not exist, the run has
    written nothing and the reads find what was there before. *)
Theorem one_band_reads_succeed (dirs : gset string)
    (files0 : gmap string (gmap string (gmap string gf))) :
  let r := one_band_cell dirs files0 in
  if bool_decide ("data/one_band" ∈ dirs) then
    finished r = true
    /\ Forall (fun rd : string * string * string =>
                 is_Some (archive_read (files (world_of r))
                            (fst (fst rd)) (snd (fst rd)) (snd rd)))
              one_band_reads
  else
    finished r = false /\ files (world_of r) = files0.
Proof.
  cbv zeta. case_bool_decide as Hdir.
  - rewrite one_band_cell_finishes by exact Hdir. cbn [finished world_of].
    split; [reflexivity|]. apply one_band_reads_found.
  - rewrite one_band_cell_raises by exact Hdir. cbn [finished world_of].
    repeat split.
Qed.

(** Where [data/one_band] exists, a run of the cell does not read the
    archives: the final solver, and every value that the analysis
    cells read afterwards, are the same whatever archives the directory
    held before the run. *)
Theorem one_band_reads_are_fresh (dirs dirs' : gset string)
    (files0 files0' : gmap string (gmap string (gmap string gf))) :
  "data/one_band" ∈ dirs -> "data/one_band" ∈ dirs' ->
  let r := one_band_cell dirs files0 in
  let r' := one_band_cell dirs' files0' in
  finished r = true /\ finished r' = true
  /\ S (world_of r) = S (world_of r')
  /\ Forall (fun rd : string * string * string =>
               archive_read (files (world_of r)) (fst (fst rd)) (snd (fst rd)) (snd rd)
               = archive_read (files (world_of r')) (fst (fst rd)) (snd (fst rd)) (snd rd))
            one_band_reads.
Proof.
  intros Hdir Hdir'. cbv zeta.
  rewrite !one_band_cell_finishes by assumption. cbn [finished world_of].
  split; [reflexivity|]. split; [reflexivity|]. apply one_band_run_is_fresh.
Qed.

End WithFramework.
End DMFTFilesFacts.

Module SingleFreqAnalysisFacts.
Import Cplx Operators DMFT SingleFreq DMFTFacts DMFTAnalysis DMFTAnalysisFacts
  DMFTFiles DMFTFilesFacts.

Lemma scripts_write_only_their_keys_witness :
  archive_key (files (one_band ∅)) "tpsc.h5" "chi0_qw" = archive_key ∅ "tpsc.h5" "chi0_qw"
  /\ archive_key (files (two_band half ∅)) "tpsc.h5" "chi0_qw"
     = archive_key ∅ "tpsc.h5" "chi0_qw".
Proof.
  apply (scripts_write_only_their_keys half ∅ "tpsc.h5" "chi0_qw"). by_evaluation.
Defined.

Lemma loop_forgets_previous_green_functions_witness :
  S (one_band_U (qc 2 1) (one_band_init ∅))
  = S (one_band_U (qc 2 1) (one_band_U (qc 1 1) (one_band_init ∅)))
  /\ S (two_band_U half (qc 1 10) (qc 2 1) (two_band_init ∅))
     = S (two_band_U half (qc 1 10) (qc 2 1)
            (two_band_U half (qc 1 10) (qc 1 1) (two_band_init ∅))).
Proof.
  assert (H1 : same_solver_shape (S (one_band_init ∅))
                 (S (one_band_U (qc 1 1) (one_band_init ∅))))
    by (unfold same_solver_shape; repeat split; by_evaluation).
  assert (H2 : same_solver_shape (S (two_band_init ∅))
                 (S (two_band_U half (qc 1 10) (qc 1 1) (two_band_init ∅))))
    by (unfold same_solver_shape; repeat split; by_evaluation).
  exact (conj (proj1 (loop_forgets_previous_green_functions half (qc 1 10) (qc 2 1) _ _ H1))
              (proj2 (loop_forgets_previous_green_functions half (qc 1 10) (qc 2 1) _ _ H2))).
Defined.

Lemma archive_keeps_every_iteration_witness :
  archive_key (files (one_band_top (qc 2 1) 3 (one_band_init ∅))) (one_band_path (qc 2 1))
    ("G-" +:+ pretty 1%nat)
  = Some (G_iw (S (one_band_top (qc 2 1) (1 + 1) (one_band_init ∅)))).
Proof.
  exact (proj1 (proj1 (archive_keeps_every_iteration half (qc 1 10) (qc 2 1) 3 1
                         (one_band_init ∅) ltac:(lia)))).
Defined.

Lemma one_band_reads_are_fresh_witness :
  S (world_of (one_band_cell {[ "data/one_band" ]} ∅))
  = S (world_of (one_band_cell {[ "data/one_band"; "data/two_bands" ]}
                   {[ "data/one_band/half-U2.00.h5" := {[ "G-9" := ∅ ]} ]})).
Proof.
  assert (H1 : "data/one_band" ∈ ({[ "data/one_band" ]} : gset string)) by by_evaluation.
  assert (H2 : "data/one_band" ∈ ({[ "data/one_band"; "data/two_bands" ]} : gset string))
    by by_evaluation.
  exact (proj1 (proj2 (proj2 (one_band_reads_are_fresh _ _ ∅
                                {[ "data/one_band/half-U2.00.h5" := {[ "G-9" := ∅ ]} ]}
                                H1 H2)))).
Defined.

End SingleFreqAnalysisFacts.

